(** * AnimationSystem: the animation collection of Slate

    A shallow embedding of [src/lib/animationsystem.cpp] and the
    properties of its selection index, its change notifications and its
    index validation.

    Conventions of the model.
    - A C++ [int] is a [Z].  The arithmetic on indices ([+ 1], [- 1]) and
      the one division are on values bounded by the length of the vector
      or by the canvas, which stay inside [int]; the counter of generated
      names has no such bound, and its increment is [wrap_int], the
      wrap-around of a 32-bit [int].
    - A [QVector<Animation*>] is a [list Animation]; an [Animation] value
      stands for the pointer together with the object it points to, and
      pointer equality is equality of [address].  No function of the file
      changes an animation once it is in the vector.
    - A member function is a computation in the monad [M]: it reads and
      writes the members of the [AnimationSystem], appends to the log of
      emitted signals and warnings, and stops with [OutOfBounds] where the
      C++ would index the vector outside [0, size - 1] (an assertion
      failure in a debug build of Qt, undefined behaviour otherwise).
    - Observers connected to the signals are not part of the file and are
      not run; [qCDebug] output is not recorded.  [write], which only
      hands a JSON object to the playback, is left out. *)

From Stdlib Require Import ZArith String PrimFloat Lia.
From stdpp Require Import base numbers list strings pretty.

Local Open Scope string_scope.
Local Open Scope list_scope.
Local Open Scope Z_scope.

(** * The model *)

(** ** Data *)

(** The fields of [Animation] that this file sets through its setters,
    and the address of the object. *)
Record Animation := {
  address : positive;
  name : string;
  fps : Z;
  frameCount : Z;
  frameX : Z;
  frameY : Z;
  frameWidth : Z;
  frameHeight : Z
}.

(** Modelled from the spec: [AnimationPlayback], whose header and
    implementation are not in this file.  The spec gives it a bound
    animation ([setAnimation]) and the fields [scale], [loop] and
    [playing] ([setScale], [setLoop], [setPlaying], [read], [write]). *)
Record AnimationPlayback := {
  animation : option Animation;
  scale : float;
  loop : bool;
  playing : bool
}.

Record AnimationSystem := {
  mAnimations : list Animation;
  mCurrentAnimationIndex : Z;
  mCurrentAnimationPlayback : AnimationPlayback;
  mAnimationsCreated : Z
}.

Record QSize := { width : Z; height : Z }.

(** What [read] takes from its [QJsonObject]: an object with a top-level
    [fps] key is a project older than 0.10.0, any other object holds an
    array of animations and a playback object.  The animations of the
    array are given as [Animation::read] leaves them (that function is not
    in this file), each with the address of its [new Animation(this)]. *)
Inductive QJsonObject :=
| LegacyProject (address : positive)
    (fps frameCount frameX frameY frameWidth frameHeight : Z)
    (scale : float) (loop : bool)
| Project (animations : list Animation)
    (scale : float) (loop playing : bool).

(** The value a 32-bit two's-complement [int] holds after a computation
    whose mathematical result is [z]: [z] itself inside
    [-2147483648, 2147483647], wrapped around outside.  It is applied to
    the counter of generated names, the one [int] of the file that is
    incremented without any bound. *)
Definition wrap_int (z : Z) : Z := (z + 2147483648) mod 4294967296 - 2147483648.

(** ** Signals and warnings *)

Inductive warning :=
| AlreadyExists (name : string)
| AlreadyExistsAt (name : string) (index : Z)
| InvalidIndex (index : Z)
| DoesntExist (name : string).

Inductive event :=
| preAnimationAdded (index : Z)
| postAnimationAdded (index : Z)
| preAnimationRemoved (index : Z)
| postAnimationRemoved (index : Z)
| animationCountChanged
| currentAnimationIndexChanged
| qWarning (w : warning).

(** ** The monad of member functions *)

Inductive result (A : Type) :=
| Done (value : A) (s : AnimationSystem) (log : list event)
| OutOfBounds.

Arguments Done {A} value s log.
Arguments OutOfBounds {A}.

Definition M (A : Type) : Type := AnimationSystem -> result A.

Definition ret {A} (a : A) : M A := fun s => Done a s [].

Definition bind {A B} (m : M A) (f : A -> M B) : M B :=
  fun s =>
    match m s with
    | Done a s1 l1 =>
        match f a s1 with
        | Done b s2 l2 => Done b s2 (l1 ++ l2)
        | OutOfBounds => OutOfBounds
        end
    | OutOfBounds => OutOfBounds
    end.

Declare Scope M_scope.
Delimit Scope M_scope with M.
Bind Scope M_scope with M.
Notation "x <- m ; k" := (bind m (fun x => k))
  (at level 20, m at level 100, k at level 200, only parsing) : M_scope.
Notation "m ;; k" := (bind m (fun _ => k))
  (at level 100, k at level 200, only parsing, right associativity) : M_scope.
Local Open Scope M_scope.

Definition gets {A} (f : AnimationSystem -> A) : M A := fun s => Done (f s) s [].
Definition modify (f : AnimationSystem -> AnimationSystem) : M unit :=
  fun s => Done tt (f s) [].
Definition emit (e : event) : M unit := fun s => Done tt s [e].
Definition fault {A} : M A := fun _ => OutOfBounds.
Definition unchecked {A} (o : option A) : M A :=
  match o with Some a => ret a | None => fault end.

(** ** QVector *)

Definition size {A} (v : list A) : Z := Z.of_nat (length v).

(** [QVector::at(i)]: defined for [0 <= i < size]. *)
Definition at_ {A} (v : list A) (i : Z) : option A :=
  if (0 <=? i) && (i <? size v) then v !! Z.to_nat i else None.

(** [QVector::insert(i, value)], called here with [0 <= i <= size]. *)
Definition insert_ {A} (i : Z) (a : A) (v : list A) : list A :=
  take (Z.to_nat i) v ++ a :: drop (Z.to_nat i) v.

(** [QVector::erase(it)] and the removal of [QVector::takeAt(i)]. *)
Definition erase {A} (i : Z) (v : list A) : list A := delete (Z.to_nat i) v.

(** [QVector::indexOf(value)] on pointers: the first position holding
    the same address, or -1. *)
Definition indexOf (a : Animation) (v : list Animation) : Z :=
  match list_find (fun b => address b = address a) v with
  | Some (i, _) => Z.of_nat i
  | None => -1
  end.

(** ** Setters of the members *)

Definition set_mAnimations (v : list Animation) (s : AnimationSystem) :=
  {| mAnimations := v;
     mCurrentAnimationIndex := mCurrentAnimationIndex s;
     mCurrentAnimationPlayback := mCurrentAnimationPlayback s;
     mAnimationsCreated := mAnimationsCreated s |}.

Definition set_mCurrentAnimationIndex (i : Z) (s : AnimationSystem) :=
  {| mAnimations := mAnimations s;
     mCurrentAnimationIndex := i;
     mCurrentAnimationPlayback := mCurrentAnimationPlayback s;
     mAnimationsCreated := mAnimationsCreated s |}.

Definition set_mCurrentAnimationPlayback (p : AnimationPlayback) (s : AnimationSystem) :=
  {| mAnimations := mAnimations s;
     mCurrentAnimationIndex := mCurrentAnimationIndex s;
     mCurrentAnimationPlayback := p;
     mAnimationsCreated := mAnimationsCreated s |}.

Definition set_mAnimationsCreated (n : Z) (s : AnimationSystem) :=
  {| mAnimations := mAnimations s;
     mCurrentAnimationIndex := mCurrentAnimationIndex s;
     mCurrentAnimationPlayback := mCurrentAnimationPlayback s;
     mAnimationsCreated := n |}.

(** ** AnimationPlayback *)

Module Playback.

(** Modelled from the spec: the state of a playback cursor that was just
    constructed: bound to no animation and not playing.  The spec does
    not give the defaults of [scale] and [loop]; nothing below depends on
    the two values chosen here. *)
Definition initial : AnimationPlayback :=
  {| animation := None; scale := 1%float; loop := true; playing := false |}.

(** Modelled from the spec: [setAnimation] rebinds the cursor and keeps
    its other fields. *)
Definition setAnimation (a : option Animation) (p : AnimationPlayback) :=
  {| animation := a; scale := scale p; loop := loop p; playing := playing p |}.

Definition setScale (x : float) (p : AnimationPlayback) :=
  {| animation := animation p; scale := x; loop := loop p; playing := playing p |}.

Definition setLoop (b : bool) (p : AnimationPlayback) :=
  {| animation := animation p; scale := scale p; loop := b; playing := playing p |}.

Definition setPlaying (b : bool) (p : AnimationPlayback) :=
  {| animation := animation p; scale := scale p; loop := loop p; playing := b |}.

(** Modelled from the spec: [read] takes [scale], [loop] and [playing]
    from the persisted playback object. *)
Definition read (x : float) (l pl : bool) (p : AnimationPlayback) :=
  {| animation := animation p; scale := x; loop := l; playing := pl |}.

(** Modelled from the spec: [reset] puts the cursor back in its initial
    state. *)
Definition reset (_ : AnimationPlayback) : AnimationPlayback := initial.

End Playback.

Definition playback (f : AnimationPlayback -> AnimationPlayback) : M unit :=
  modify (fun s => set_mCurrentAnimationPlayback (f (mCurrentAnimationPlayback s)) s).

(** ** AnimationSystem *)

(** Modelled from the spec: the members as the constructor leaves them;
    their initialisers are in the header, which is not in this file.  The
    spec has no current animation (-1) and a zero counter at the start. *)
Definition initial : AnimationSystem :=
  {| mAnimations := [];
     mCurrentAnimationIndex := -1;
     mCurrentAnimationPlayback := Playback.initial;
     mAnimationsCreated := 0 |}.

Definition currentAnimationIndex (s : AnimationSystem) : Z :=
  mCurrentAnimationIndex s.

Definition animationCount (s : AnimationSystem) : Z := size (mAnimations s).

(** [std::find_if] over the vector: the position of the first animation
    with that name, [None] for the [end()] iterator. *)
Definition findAnimationWithName (n : string) (s : AnimationSystem) : option nat :=
  fst <$> list_find (fun a => name a = n) (mAnimations s).

Definition containsAnimation (n : string) (s : AnimationSystem) : bool :=
  bool_decide (findAnimationWithName n s <> None).

Definition indexOfAnimation (n : string) (s : AnimationSystem) : Z :=
  match findAnimationWithName n s with
  | None => -1
  | Some i => Z.of_nat i
  end.

Definition isValidIndexOrWarn (index : Z) : M bool :=
  n <- gets animationCount ;
  if (index <? 0) || (index >? n) then
    emit (qWarning (InvalidIndex index)) ;; ret false
  else ret true.

Definition currentAnimation : M (option Animation) :=
  i <- gets mCurrentAnimationIndex ;
  if i =? -1 then ret None
  else
    v <- gets mAnimations ;
    a <- unchecked (at_ v i) ;
    ret (Some a).

Definition setCurrentAnimationIndex (index : Z) : M unit :=
  valid <- isValidIndexOrWarn index ;
  if negb valid then ret tt
  else
    i <- gets mCurrentAnimationIndex ;
    if index =? i then ret tt
    else
      modify (set_mCurrentAnimationIndex index) ;;
      a <- currentAnimation ;
      playback (Playback.setAnimation a) ;;
      emit currentAnimationIndexChanged.

Definition peekNextGeneratedName (s : AnimationSystem) : string :=
  "Animation " +:+ pretty (wrap_int (mAnimationsCreated s + 1)).

Definition takeNextGeneratedName : M string :=
  n <- gets peekNextGeneratedName ;
  modify (fun s => set_mAnimationsCreated (wrap_int (mAnimationsCreated s + 1)) s) ;;
  ret n.

(** The animation that [addNewAnimation] builds: [new Animation()] at
    address [p], then the setters of lines 104 to 110.  The integer
    division of C++ truncates. *)
Definition newAnimation (canvasSize : QSize) (p : positive) (n : string) : Animation :=
  let frames := if width canvasSize >=? 8 then 4 else 1 in
  {| address := p; name := n; fps := 4; frameCount := frames;
     frameX := 0; frameY := 0;
     frameWidth := width canvasSize ÷ frames;
     frameHeight := height canvasSize |}.

(** [addNewAnimation(canvasSize)]; [p] is the address that
    [new Animation()] returns.  The null [QString] of the refusal is the
    empty string. *)
Definition addNewAnimation (canvasSize : QSize) (p : positive) : M string :=
  n <- gets peekNextGeneratedName ;
  existingAnimationIt <- gets (findAnimationWithName n) ;
  match existingAnimationIt with
  | Some _ => emit (qWarning (AlreadyExists n)) ;; ret EmptyString
  | None =>
      count <- gets animationCount ;
      let addIndex := count - 1 in
      emit (preAnimationAdded addIndex) ;;
      modify (fun s => set_mAnimationsCreated (wrap_int (mAnimationsCreated s + 1)) s) ;;
      let a := newAnimation canvasSize p n in
      modify (fun s => set_mAnimations (mAnimations s ++ [a]) s) ;;
      count' <- gets animationCount ;
      (if count' =? 1 then setCurrentAnimationIndex 0 else ret tt) ;;
      emit (postAnimationAdded addIndex) ;;
      ret n
  end.

Definition addAnimation (a : Animation) (index : Z) : M unit :=
  existingIndex <- gets (fun s => indexOf a (mAnimations s)) ;
  if negb (existingIndex =? -1) then
    emit (qWarning (AlreadyExistsAt (name a) existingIndex))
  else
    valid <- isValidIndexOrWarn index ;
    if negb valid then ret tt
    else
      emit (preAnimationAdded index) ;;
      modify (fun s => set_mAnimations (insert_ index a (mAnimations s)) s) ;;
      count <- gets animationCount ;
      (if count =? 1 then setCurrentAnimationIndex 0
       else
         i <- gets mCurrentAnimationIndex ;
         if index <=? i then setCurrentAnimationIndex (i + 1) else ret tt) ;;
      emit (postAnimationAdded index) ;;
      emit animationCountChanged.

(** [takeAnimation(const QString &name)]. *)
Definition takeAnimation_QString (n : string) : M unit :=
  animationIt <- gets (findAnimationWithName n) ;
  match animationIt with
  | None => emit (qWarning (DoesntExist n))
  | Some position =>
      let removedIndex := Z.of_nat position in
      emit (preAnimationRemoved removedIndex) ;;
      count <- gets animationCount ;
      (if count =? 1 then setCurrentAnimationIndex (-1) else ret tt) ;;
      i <- gets mCurrentAnimationIndex ;
      (if removedIndex <=? i then setCurrentAnimationIndex (i - 1) else ret tt) ;;
      modify (fun s => set_mAnimations (erase removedIndex (mAnimations s)) s) ;;
      emit (postAnimationRemoved removedIndex) ;;
      emit animationCountChanged
  end.

Definition animationAt (index : Z) : M (option Animation) :=
  valid <- isValidIndexOrWarn index ;
  if negb valid then ret None
  else
    v <- gets mAnimations ;
    a <- unchecked (at_ v index) ;
    ret (Some a).

(** [takeAnimation(int index)]. *)
Definition takeAnimation_int (index : Z) : M (option Animation) :=
  valid <- isValidIndexOrWarn index ;
  if negb valid then ret None
  else
    emit (preAnimationRemoved index) ;;
    v <- gets mAnimations ;
    a <- unchecked (at_ v index) ;
    modify (set_mAnimations (erase index v)) ;;
    emit (postAnimationRemoved index) ;;
    emit animationCountChanged ;;
    ret (Some a).

Definition read (json : QJsonObject) : M unit :=
  match json with
  | LegacyProject p fps_ frameCount_ frameX_ frameY_ frameWidth_ frameHeight_ scale_ loop_ =>
      n <- takeNextGeneratedName ;
      let a := {| address := p; name := n; fps := fps_; frameCount := frameCount_;
                  frameX := frameX_; frameY := frameY_;
                  frameWidth := frameWidth_; frameHeight := frameHeight_ |} in
      addAnimation a 0 ;;
      playback (Playback.setScale scale_) ;;
      playback (Playback.setLoop loop_) ;;
      playback (Playback.setPlaying false)
  | Project animations scale_ loop_ playing_ =>
      modify (fun s => set_mAnimations (mAnimations s ++ animations) s) ;;
      playback (Playback.read scale_ loop_ playing_)
  end.

Definition reset : M unit :=
  modify (set_mAnimations []) ;;
  playback Playback.reset ;;
  modify (set_mAnimationsCreated 0).

(** [animationAtNameOrWarn]: the iterator is dereferenced whether or not
    the name was found. *)
Definition animationAtNameOrWarn (n : string) : M Animation :=
  animationIt <- gets (findAnimationWithName n) ;
  match animationIt with
  | None => emit (qWarning (DoesntExist n)) ;; fault
  | Some position =>
      v <- gets mAnimations ;
      unchecked (v !! position)
  end.

(** ** Reachable states *)

(** The public operations that change the collection. *)
Inductive operation :=
| SetCurrentAnimationIndex (index : Z)
| AddNewAnimation (canvasSize : QSize) (p : positive)
| AddAnimation (a : Animation) (index : Z)
| TakeAnimation_QString (n : string)
| TakeAnimation_int (index : Z)
| ReadProject (json : QJsonObject)
| ResetSystem.

Definition run (o : operation) : M unit :=
  match o with
  | SetCurrentAnimationIndex index => setCurrentAnimationIndex index
  | AddNewAnimation canvasSize p => addNewAnimation canvasSize p ;; ret tt
  | AddAnimation a index => addAnimation a index
  | TakeAnimation_QString n => takeAnimation_QString n
  | TakeAnimation_int index => takeAnimation_int index ;; ret tt
  | ReadProject json => read json
  | ResetSystem => reset
  end.

(** A state is reachable when a sequence of operations, none of which
    indexes the vector out of bounds, leads to it from the state the
    constructor leaves. *)
Inductive reachable : AnimationSystem -> Prop :=
| reachable_initial : reachable initial
| reachable_step s o s' log :
    reachable s -> run o s = Done tt s' log -> reachable s'.

(** The state a sequence of operations leads to; [None] when one of them
    indexes the vector out of bounds. *)
Fixpoint run_all (os : list operation) (s : AnimationSystem) : option AnimationSystem :=
  match os with
  | [] => Some s
  | o :: os' =>
      match run o s with
      | Done _ s' _ => run_all os' s'
      | OutOfBounds => None
      end
  end.

(** The range the data model gives the current index. *)
Definition index_in_range (s : AnimationSystem) : Prop :=
  -1 <= mCurrentAnimationIndex s <= animationCount s - 1.

(** The rule the spec gives for the current index after an insertion at
    [index] that took [s] to [s']. *)
Definition insertion_rule (index : Z) (s s' : AnimationSystem) : Prop :=
  mCurrentAnimationIndex s' =
    if animationCount s =? 0 then 0
    else if index <=? mCurrentAnimationIndex s then mCurrentAnimationIndex s + 1
    else mCurrentAnimationIndex s.

(** ** Concrete collections *)

Definition canvas : QSize := {| width := 8; height := 16 |}.

(** The animation that [addNewAnimation canvas p] builds as the [k]-th of
    a session. *)
Definition generated (p : positive) (k : Z) : Animation :=
  {| address := p; name := "Animation " +:+ pretty k; fps := 4; frameCount := 4;
     frameX := 0; frameY := 0; frameWidth := 2; frameHeight := 16 |}.

Definition bound_to (a : option Animation) : AnimationPlayback :=
  Playback.setAnimation a Playback.initial.

(** One generated animation, selected. *)
Definition one_animation : AnimationSystem :=
  {| mAnimations := [generated 1 1];
     mCurrentAnimationIndex := 0;
     mCurrentAnimationPlayback := bound_to (Some (generated 1 1));
     mAnimationsCreated := 1 |}.

(** Two generated animations, the first selected. *)
Definition two_animations : AnimationSystem :=
  {| mAnimations := [generated 1 1; generated 2 2];
     mCurrentAnimationIndex := 0;
     mCurrentAnimationPlayback := bound_to (Some (generated 1 1));
     mAnimationsCreated := 2 |}.

(** [two_animations] after [takeAnimation(0)], and also after
    [takeAnimation] of the first animation's name: the playback is still
    bound to the animation that left the collection. *)
Definition first_detached : AnimationSystem :=
  {| mAnimations := [generated 2 2];
     mCurrentAnimationIndex := 0;
     mCurrentAnimationPlayback := bound_to (Some (generated 1 1));
     mAnimationsCreated := 2 |}.

(** Three generated animations with the last selected, after
    [takeAnimation(0)] twice. *)
Definition two_detached : AnimationSystem :=
  {| mAnimations := [generated 3 3];
     mCurrentAnimationIndex := 2;
     mCurrentAnimationPlayback := bound_to (Some (generated 3 3));
     mAnimationsCreated := 3 |}.

(** [two_animations] after a third generated animation. *)
Definition three_animations : AnimationSystem :=
  {| mAnimations := [generated 1 1; generated 2 2; generated 3 3];
     mCurrentAnimationIndex := 0;
     mCurrentAnimationPlayback := bound_to (Some (generated 1 1));
     mAnimationsCreated := 3 |}.

(** [one_animation] after its animation was removed or detached. *)
Definition emptied : AnimationSystem :=
  {| mAnimations := [];
     mCurrentAnimationIndex := 0;
     mCurrentAnimationPlayback := bound_to (Some (generated 1 1));
     mAnimationsCreated := 1 |}.

(** [one_animation] after [reset()]. *)
Definition after_reset : AnimationSystem :=
  {| mAnimations := [];
     mCurrentAnimationIndex := 0;
     mCurrentAnimationPlayback := Playback.initial;
     mAnimationsCreated := 0 |}.

(** An animation made elsewhere, for [addAnimation]. *)
Definition walk : Animation :=
  {| address := 9; name := "Walk"; fps := 12; frameCount := 6;
     frameX := 0; frameY := 0; frameWidth := 16; frameHeight := 16 |}.

(** ** Invariants of computations *)

(** [keeps P m]: whenever [m] returns from a state that satisfies [P],
    the state it leaves satisfies [P]. *)
Definition keeps {A} (P : AnimationSystem -> Prop) (m : M A) : Prop :=
  forall s a s' log, P s -> m s = Done a s' log -> P s'.

(** The operations other than [reset()]. *)
Definition resets (o : operation) : bool :=
  match o with ResetSystem => true | _ => false end.

(** The notifications of a log that announce a change of the vector. *)
Definition structural (e : event) : bool :=
  match e with
  | preAnimationAdded _ | postAnimationAdded _
  | preAnimationRemoved _ | postAnimationRemoved _ => true
  | _ => false
  end.

(** The structural notifications of a log, in order. *)
Definition announcements (log : list event) : list event :=
  List.filter structural log.

(** [announces Q m]: whenever [m] returns, the structural notifications of
    its log satisfy [Q]. *)
Definition announces {A} (Q : list event -> Prop) (m : M A) : Prop :=
  forall s a s' log, m s = Done a s' log -> Q (announcements log).

(** Nothing, or one pre-notification followed by the post-notification
    of the same kind with the same index. *)
Definition one_pair_at_most (l : list event) : Prop :=
  l = [] \/
  (exists i, l = [preAnimationAdded i; postAnimationAdded i]) \/
  (exists i, l = [preAnimationRemoved i; postAnimationRemoved i]).

(** The operations that announce their changes of the vector. *)
Definition announced (o : operation) : bool :=
  match o with ReadProject _ | ResetSystem => false | _ => true end.




(** The operations that keep the current index in its range, with the
    condition on the setter's argument and on the removal by name. *)
Definition range_keeping (o : operation) (s : AnimationSystem) : Prop :=
  match o with
  | AddNewAnimation _ _ | AddAnimation _ _ | ReadProject _ => True
  | SetCurrentAnimationIndex index => index < animationCount s
  | TakeAnimation_QString _ => animationCount s <> 1
  | TakeAnimation_int _ | ResetSystem => False
  end.

(** * Properties *)

Ltac unfold_M :=
  unfold bind, gets, modify, emit, ret, fault, unchecked, playback in *.

Ltac log_shape := repeat (constructor; [solve [auto]|]); constructor.

(** ** Basic facts *)

Lemma run_all_reachable os s s' :
  reachable s -> run_all os s = Some s' -> reachable s'.
Proof.
  revert s. induction os as [|o os IH]; intros s Hs H; cbn in H.
  - congruence.
  - destruct (run o s) as [[] s1 l1|] eqn:E; [|discriminate].
    eapply IH; [|exact H]. eapply reachable_step; eauto.
Qed.

Lemma size_nonneg {A} (v : list A) : 0 <= size v.
Proof. unfold size. lia. Qed.

Lemma at_Some {A} (v : list A) i a :
  at_ v i = Some a <-> 0 <= i < size v /\ v !! Z.to_nat i = Some a.
Proof.
  unfold at_. destruct (0 <=? i) eqn:E1; destruct (i <? size v) eqn:E2; cbn;
    split; intros H; try discriminate; try (split; [lia | exact H]);
    destruct H as [H1 H2]; try lia; exact H2.
Qed.

Lemma at_None {A} (v : list A) i :
  at_ v i = None <-> i < 0 \/ size v <= i.
Proof.
  unfold at_, size. destruct (0 <=? i) eqn:E1; destruct (i <? Z.of_nat (length v)) eqn:E2; cbn;
    split; intros H; try lia; try reflexivity.
  apply lookup_ge_None in H. lia.
Qed.

Lemma indexOfAnimation_position n s r :
  findAnimationWithName n s = Some r ->
  indexOfAnimation n s = Z.of_nat r /\ containsAnimation n s = true.
Proof.
  intros H. unfold indexOfAnimation, containsAnimation. rewrite H.
  split; [reflexivity|]. apply bool_decide_eq_true. discriminate.
Qed.

Lemma indexOfAnimation_absent n s :
  findAnimationWithName n s = None ->
  indexOfAnimation n s = -1 /\ containsAnimation n s = false.
Proof.
  intros H. unfold indexOfAnimation, containsAnimation. rewrite H.
  split; [reflexivity|]. apply bool_decide_eq_false. intros E. apply E. reflexivity.
Qed.

(** ** Equations of the monad *)

Lemma bind_Done {A B} (m : M A) (k : A -> M B) s a s1 l1 :
  m s = Done a s1 l1 ->
  bind m k s =
    match k a s1 with
    | Done b s2 l2 => Done b s2 (l1 ++ l2)
    | OutOfBounds => OutOfBounds
    end.
Proof. intros E. unfold bind. rewrite E. reflexivity. Qed.

Lemma bind_OutOfBounds {A B} (m : M A) (k : A -> M B) s :
  m s = OutOfBounds -> bind m k s = OutOfBounds.
Proof. intros E. unfold bind. rewrite E. reflexivity. Qed.

Lemma bind_quiet {A B} (m : M A) (k : A -> M B) s a s1 :
  m s = Done a s1 [] -> bind m k s = k a s1.
Proof. intros E. rewrite (bind_Done _ _ _ _ _ _ E). destruct (k a s1); reflexivity. Qed.

Lemma bind_assoc {A B C} (m : M A) (f : A -> M B) (g : B -> M C) s :
  bind (bind m f) g s = bind m (fun x => bind (f x) g) s.
Proof.
  unfold bind. destruct (m s) as [a s1 l1|]; [|reflexivity].
  destruct (f a s1) as [b s2 l2|]; [|reflexivity].
  destruct (g b s2) as [c s3 l3|]; [|reflexivity].
  rewrite app_assoc. reflexivity.
Qed.

Lemma bind_ret {A B} (a : A) (k : A -> M B) s : bind (ret a) k s = k a s.
Proof. apply bind_quiet. reflexivity. Qed.

Lemma bind_gets {A B} (f : AnimationSystem -> A) (k : A -> M B) s :
  bind (gets f) k s = k (f s) s.
Proof. apply bind_quiet. reflexivity. Qed.

Lemma bind_modify {B} f (k : unit -> M B) s : bind (modify f) k s = k tt (f s).
Proof. apply bind_quiet. reflexivity. Qed.

Lemma bind_playback {B} f (k : unit -> M B) s :
  bind (playback f) k s =
    k tt (set_mCurrentAnimationPlayback (f (mCurrentAnimationPlayback s)) s).
Proof. apply bind_quiet. reflexivity. Qed.

Lemma bind_emit {B} e (k : unit -> M B) s :
  bind (emit e) k s =
    match k tt s with
    | Done b s2 l2 => Done b s2 (e :: l2)
    | OutOfBounds => OutOfBounds
    end.
Proof. apply (bind_Done (emit e) k s tt s [e]). reflexivity. Qed.

(** ** The index validation and the setter *)

Lemma isValidIndexOrWarn_accepts index s :
  0 <= index <= animationCount s ->
  isValidIndexOrWarn index s = Done true s [].
Proof.
  intros H. unfold isValidIndexOrWarn. unfold_M.
  destruct ((index <? 0) || (index >? animationCount s)) eqn:E; [lia | reflexivity].
Qed.

Lemma isValidIndexOrWarn_rejects index s :
  index < 0 \/ animationCount s < index ->
  isValidIndexOrWarn index s = Done false s [qWarning (InvalidIndex index)].
Proof.
  intros H. unfold isValidIndexOrWarn. unfold_M.
  destruct ((index <? 0) || (index >? animationCount s)) eqn:E; [reflexivity | lia].
Qed.

Lemma setCurrentAnimationIndex_rejects index s :
  index < 0 \/ animationCount s < index ->
  setCurrentAnimationIndex index s = Done tt s [qWarning (InvalidIndex index)].
Proof.
  intros H. unfold setCurrentAnimationIndex, bind at 1.
  rewrite isValidIndexOrWarn_rejects by exact H. reflexivity.
Qed.

Lemma setCurrentAnimationIndex_same index s :
  0 <= index <= animationCount s ->
  index = mCurrentAnimationIndex s ->
  setCurrentAnimationIndex index s = Done tt s [].
Proof.
  intros H E. unfold setCurrentAnimationIndex, bind at 1.
  rewrite isValidIndexOrWarn_accepts by exact H. cbn.
  unfold_M. rewrite <- E, Z.eqb_refl. reflexivity.
Qed.

Lemma setCurrentAnimationIndex_changes index s a :
  at_ (mAnimations s) index = Some a ->
  index <> mCurrentAnimationIndex s ->
  setCurrentAnimationIndex index s =
    Done tt
      (set_mCurrentAnimationPlayback
         (Playback.setAnimation (Some a) (mCurrentAnimationPlayback s))
         (set_mCurrentAnimationIndex index s))
      [currentAnimationIndexChanged].
Proof.
  intros Ha Hne. pose proof (proj1 (at_Some _ _ _) Ha) as [Hr _].
  unfold setCurrentAnimationIndex, bind at 1.
  rewrite isValidIndexOrWarn_accepts by (unfold animationCount; lia). cbn.
  unfold currentAnimation. unfold_M. cbn.
  destruct (index =? mCurrentAnimationIndex s) eqn:E; [lia|]. cbn.
  destruct (index =? -1) eqn:E1; [lia|]. cbn. rewrite Ha. reflexivity.
Qed.

Lemma setCurrentAnimationIndex_past_the_end s :
  animationCount s <> mCurrentAnimationIndex s ->
  setCurrentAnimationIndex (animationCount s) s = OutOfBounds.
Proof.
  intros Hne. pose proof (size_nonneg (mAnimations s)) as Hs.
  unfold setCurrentAnimationIndex, bind at 1.
  rewrite isValidIndexOrWarn_accepts by (unfold animationCount; lia). cbn.
  unfold currentAnimation. unfold_M. cbn.
  destruct (animationCount s =? mCurrentAnimationIndex s) eqn:E; [lia|]. cbn.
  destruct (animationCount s =? -1) eqn:E1; [unfold animationCount in *; lia|]. cbn.
  replace (at_ (mAnimations s) (animationCount s)) with (@None Animation); [reflexivity|].
  symmetry. apply at_None. right. unfold animationCount. lia.
Qed.

Lemma currentAnimation_selected s a :
  at_ (mAnimations s) (mCurrentAnimationIndex s) = Some a ->
  currentAnimation s = Done (Some a) s [].
Proof.
  intros Ha. pose proof (proj1 (at_Some _ _ _) Ha) as [Hr _].
  unfold currentAnimation. unfold_M. cbn.
  destruct (mCurrentAnimationIndex s =? -1) eqn:E; [lia|].
  cbn. rewrite Ha. reflexivity.
Qed.

Lemma currentAnimation_none s :
  mCurrentAnimationIndex s = -1 -> currentAnimation s = Done None s [].
Proof.
  intros E. unfold currentAnimation. unfold_M. cbn. rewrite E. reflexivity.
Qed.

Lemma currentAnimation_dangling s :
  0 <= animationCount s <= mCurrentAnimationIndex s ->
  currentAnimation s = OutOfBounds.
Proof.
  intros H. unfold currentAnimation. unfold_M. cbn.
  destruct (mCurrentAnimationIndex s =? -1) eqn:E; [lia|]. cbn.
  replace (at_ (mAnimations s) (mCurrentAnimationIndex s)) with (@None Animation);
    [reflexivity|].
  symmetry. apply at_None. right. unfold animationCount in H. lia.
Qed.

Lemma reachable_one_animation : reachable one_animation.
Proof.
  apply (run_all_reachable [AddNewAnimation canvas 1] initial);
    [constructor | reflexivity].
Qed.

Lemma reachable_two_animations : reachable two_animations.
Proof.
  apply (run_all_reachable [AddNewAnimation canvas 2] one_animation);
    [apply reachable_one_animation | reflexivity].
Qed.

Lemma reachable_first_detached : reachable first_detached.
Proof.
  apply (run_all_reachable [TakeAnimation_int 0] two_animations);
    [apply reachable_two_animations | reflexivity].
Qed.

Lemma reachable_two_detached : reachable two_detached.
Proof.
  apply (run_all_reachable
           [AddNewAnimation canvas 3; SetCurrentAnimationIndex 2;
            TakeAnimation_int 0; TakeAnimation_int 0] two_animations);
    [apply reachable_two_animations | reflexivity].
Qed.

(** ** The vector operations *)

Lemma at_in_range {A} (v : list A) i :
  0 <= i < size v -> exists a, at_ v i = Some a.
Proof.
  intros H. destruct (at_ v i) as [a|] eqn:E; [eauto|].
  apply at_None in E. lia.
Qed.

Lemma size_insert_ {A} i (a : A) v : size (insert_ i a v) = size v + 1.
Proof.
  unfold size, insert_. rewrite length_app. cbn [length].
  rewrite length_take, length_drop. lia.
Qed.

Lemma size_app {A} (v w : list A) : size (v ++ w) = size v + size w.
Proof. unfold size. rewrite length_app. lia. Qed.

Lemma size_erase {A} i (v : list A) :
  0 <= i < size v -> size (erase i v) = size v - 1.
Proof.
  unfold size, erase. intros H.
  assert (Hlt : (Z.to_nat i < length v)%nat) by lia.
  apply lookup_lt_is_Some in Hlt. rewrite (length_delete _ _ Hlt).
  apply lookup_lt_is_Some in Hlt. lia.
Qed.

(** ** Insertion *)

Lemma addAnimation_accepted a index s :
  indexOf a (mAnimations s) = -1 ->
  0 <= index <= animationCount s ->
  addAnimation a index s =
    (emit (preAnimationAdded index) ;;
     modify (fun s => set_mAnimations (insert_ index a (mAnimations s)) s) ;;
     count <- gets animationCount ;
     (if count =? 1 then setCurrentAnimationIndex 0
      else
        i <- gets mCurrentAnimationIndex ;
        if index <=? i then setCurrentAnimationIndex (i + 1) else ret tt) ;;
     emit (postAnimationAdded index) ;;
     emit animationCountChanged) s.
Proof.
  intros Hnew Hidx. unfold addAnimation.
  rewrite bind_gets, Hnew. change (negb (-1 =? -1)) with false. cbv iota.
  rewrite (bind_quiet _ _ _ _ _ (isValidIndexOrWarn_accepts _ _ Hidx)).
  reflexivity.
Qed.

(** What an accepted insertion does in a state whose current index is not
    past the last element: the notifications it emits, the vector it
    leaves and the current index. *)
Lemma addAnimation_result a index s :
  indexOf a (mAnimations s) = -1 ->
  0 <= index <= animationCount s ->
  mCurrentAnimationIndex s <= animationCount s - 1 ->
  exists s' mid,
    addAnimation a index s =
      Done tt s'
        (preAnimationAdded index :: mid ++ [postAnimationAdded index; animationCountChanged]) /\
    (mid = [] \/ mid = [currentAnimationIndexChanged]) /\
    mAnimations s' = insert_ index a (mAnimations s) /\
    mAnimationsCreated s' = mAnimationsCreated s /\
    insertion_rule index s s'.
Proof.
  intros Hnew Hidx Hcur. rewrite addAnimation_accepted by assumption.
  rewrite bind_emit, bind_modify, bind_gets.
  set (s1 := set_mAnimations (insert_ index a (mAnimations s)) s).
  assert (Hcount : animationCount s1 = animationCount s + 1)
    by (unfold animationCount, s1; cbn; apply size_insert_).
  pose proof (size_nonneg (mAnimations s)) as Hs. fold (animationCount s) in Hs.
  unfold insertion_rule.
  destruct (animationCount s1 =? 1) eqn:E1.
  - (* the collection was empty *)
    assert (E0 : animationCount s = 0) by lia.
    destruct (at_in_range (mAnimations s1) 0) as [b Hb];
      [fold (animationCount s1); lia|].
    rewrite (bind_Done _ _ _ _ _ _
               (setCurrentAnimationIndex_changes 0 s1 b Hb ltac:(cbn; lia))).
    eexists _, [currentAnimationIndexChanged]. split; [reflexivity|].
    split; [now right|]. cbn. rewrite E0. auto.
  - assert (E0 : (animationCount s =? 0) = false) by lia. rewrite E0.
    cbv beta iota. rewrite bind_assoc, bind_gets. change (mCurrentAnimationIndex s1) with (mCurrentAnimationIndex s).
    destruct (index <=? mCurrentAnimationIndex s) eqn:E2; cbv beta iota.
    + destruct (at_in_range (mAnimations s1) (mCurrentAnimationIndex s + 1)) as [b Hb];
        [fold (animationCount s1); lia|].
      rewrite (bind_Done _ _ _ _ _ _
                 (setCurrentAnimationIndex_changes _ s1 b Hb ltac:(cbn; lia))).
      eexists _, [currentAnimationIndexChanged]. split; [reflexivity|].
      split; [now right|]. cbn. auto.
    + rewrite bind_ret. eexists _, []. split; [reflexivity|].
      split; [now left|]. cbn. auto.
Qed.

Lemma addAnimation_into_empty a s :
  animationCount s = 0 ->
  exists s' log,
    addAnimation a 0 s = Done tt s' log /\
    mAnimations s' = insert_ 0 a (mAnimations s) /\
    mCurrentAnimationIndex s' = 0.
Proof.
  intros E0.
  assert (Hv : mAnimations s = []).
  { unfold animationCount, size in E0. destruct (mAnimations s); [reflexivity|].
    cbn in E0. lia. }
  rewrite addAnimation_accepted by (rewrite ?Hv, ?E0; try reflexivity; lia).
  rewrite bind_emit, bind_modify, bind_gets.
  set (s1 := set_mAnimations (insert_ 0 a (mAnimations s)) s).
  assert (Hcount : animationCount s1 = 1)
    by (unfold animationCount, s1; cbn; rewrite size_insert_; fold (animationCount s); lia).
  rewrite Hcount. cbv beta iota. change (1 =? 1) with true. cbv iota.
  destruct (Z.eq_dec 0 (mCurrentAnimationIndex s1)) as [E|Hne].
  - rewrite (bind_quiet _ _ _ _ _
               (setCurrentAnimationIndex_same 0 s1 ltac:(lia) E)).
    eexists _, _. split; [reflexivity|]. split; [reflexivity|]. cbn. cbn in E. lia.
  - destruct (at_in_range (mAnimations s1) 0) as [b Hb];
      [fold (animationCount s1); lia|].
    rewrite (bind_Done _ _ _ _ _ _ (setCurrentAnimationIndex_changes 0 s1 b Hb Hne)).
    eexists _, _. split; [reflexivity|]. split; reflexivity.
Qed.

(** In every state that is empty or whose current index is at most
    [size - 1], an [addAnimation] of an animation that is not yet in the
    collection, at a position in [0, size], returns, inserts the
    animation at that position and moves the current index by the rule:
    0 if the collection was empty, one more if the position is at most
    the current index, unchanged otherwise. *)
Lemma addAnimation_moves_current_index a index s :
  indexOf a (mAnimations s) = -1 ->
  0 <= index <= animationCount s ->
  animationCount s = 0 \/ mCurrentAnimationIndex s <= animationCount s - 1 ->
  exists s' log,
    addAnimation a index s = Done tt s' log /\
    mAnimations s' = insert_ index a (mAnimations s) /\
    insertion_rule index s s'.
Proof.
  intros Hnew Hidx [E0 | Hcur].
  - assert (index = 0) by lia. subst index.
    destruct (addAnimation_into_empty a s E0) as (s' & log & E & Hv & Hc).
    exists s', log. split; [exact E|]. split; [exact Hv|].
    unfold insertion_rule. rewrite E0. exact Hc.
  - destruct (addAnimation_result a index s Hnew Hidx Hcur)
      as (s' & mid & E & _ & Hv & _ & Hrule).
    exists s'. eexists. split; [exact E|]. split; assumption.
Qed.

Lemma addAnimation_moves_current_index_example :
  exists s' log,
    addAnimation walk 0 emptied = Done tt s' log /\
    mAnimations s' = insert_ 0 walk (mAnimations emptied) /\
    insertion_rule 0 emptied s'.
Proof.
  apply (addAnimation_moves_current_index walk 0 emptied).
  - reflexivity.
  - change (0 <= 0 <= 0). lia.
  - left. reflexivity.
Qed.

(** C5 (the code departs from it). In [two_detached], a reachable state
    that detaching by index left with its current index past the end, an
    insertion at 0 is accepted and announced, the collection was not
    empty and 0 is at most the current index 2, so [addAnimation] calls
    the setter with 3; the setter refuses it with a warning and the
    current index stays 2 instead of being incremented. *)
Theorem addAnimation_stale_index_not_moved :
  reachable two_detached /\
  animationCount two_detached = 1 /\
  mCurrentAnimationIndex two_detached = 2 /\
  addAnimation walk 0 two_detached =
    Done tt (set_mAnimations [walk; generated 3 3] two_detached)
      [preAnimationAdded 0; qWarning (InvalidIndex 3);
       postAnimationAdded 0; animationCountChanged] /\
  ~ insertion_rule 0 two_detached (set_mAnimations [walk; generated 3 3] two_detached).
Proof.
  split; [apply reachable_two_detached|].
  repeat split; try reflexivity.
  unfold insertion_rule. vm_compute. discriminate.
Qed.

(** ** Selection *)

Lemma minus_one_is_refused s :
  setCurrentAnimationIndex (-1) s = Done tt s [qWarning (InvalidIndex (-1))].
Proof. apply setCurrentAnimationIndex_rejects. left. lia. Qed.

(** C10. In every state [setCurrentAnimationIndex(-1)] is refused by the
    index validation: it logs the warning and returns with the members
    (current index, playback, vector, counter) as they were and without
    emitting a signal. *)
Theorem setCurrentAnimationIndex_refuses_minus_one s :
  setCurrentAnimationIndex (-1) s = Done tt s [qWarning (InvalidIndex (-1))].
Proof. apply minus_one_is_refused. Qed.

(** C6 (amended). For a position [i] that holds an element [a],
    [setCurrentAnimationIndex(i)] returns and [currentAnimation()] then
    returns [a].  When [i] differs from the index that was current, the
    playback is bound to [a] as well; when [i] is the index that was
    current, the call changes nothing and emits nothing, so the playback
    keeps the binding it had. *)
Theorem setCurrentAnimationIndex_selects s i a :
  at_ (mAnimations s) i = Some a ->
  exists s' log,
    setCurrentAnimationIndex i s = Done tt s' log /\
    mCurrentAnimationIndex s' = i /\
    currentAnimation s' = Done (Some a) s' [] /\
    (i <> mCurrentAnimationIndex s ->
     animation (mCurrentAnimationPlayback s') = Some a) /\
    (i = mCurrentAnimationIndex s -> s' = s /\ log = []).
Proof.
  intros Ha. pose proof (proj1 (at_Some _ _ _) Ha) as [Hr _].
  destruct (Z.eq_dec i (mCurrentAnimationIndex s)) as [E|Hne].
  - exists s, []. split.
    + apply setCurrentAnimationIndex_same; [unfold animationCount; lia | exact E].
    + split; [congruence|]. split.
      * apply currentAnimation_selected. rewrite <- E. exact Ha.
      * split; [intros H; contradiction | auto].
  - eexists _, _. split; [apply (setCurrentAnimationIndex_changes i s a Ha Hne)|].
    split; [reflexivity|]. split.
    + apply currentAnimation_selected. exact Ha.
    + split; [reflexivity | intros E; contradiction].
Qed.

Lemma setCurrentAnimationIndex_selects_witness :
  exists s' log,
    setCurrentAnimationIndex 1 two_animations = Done tt s' log /\
    mCurrentAnimationIndex s' = 1 /\
    currentAnimation s' = Done (Some (generated 2 2)) s' [] /\
    (1 <> mCurrentAnimationIndex two_animations ->
     animation (mCurrentAnimationPlayback s') = Some (generated 2 2)) /\
    (1 = mCurrentAnimationIndex two_animations -> s' = two_animations /\ log = []).
Proof.
  apply (setCurrentAnimationIndex_selects two_animations 1 (generated 2 2)).
  reflexivity.
Defined.

(** C6 (as stated) fails in [first_detached]: position 0 holds the second
    generated animation, [setCurrentAnimationIndex(0)] returns at once
    because 0 is already the current index, and the playback stays bound
    to the first generated animation, which was detached. *)
Lemma setCurrentAnimationIndex_keeps_stale_binding :
  reachable first_detached /\
  at_ (mAnimations first_detached) 0 = Some (generated 2 2) /\
  setCurrentAnimationIndex 0 first_detached = Done tt first_detached [] /\
  currentAnimation first_detached = Done (Some (generated 2 2)) first_detached [] /\
  animation (mCurrentAnimationPlayback first_detached) = Some (generated 1 1) /\
  animation (mCurrentAnimationPlayback first_detached) <> Some (generated 2 2).
Proof.
  split; [apply reachable_first_detached|].
  repeat split; try reflexivity.
  vm_compute. discriminate.
Qed.

(** ** Removal by name *)

Lemma findAnimationWithName_absent n s :
  (forall a, a ∈ mAnimations s -> name a <> n) ->
  findAnimationWithName n s = None.
Proof.
  intros H. unfold findAnimationWithName.
  replace (list_find (fun a => name a = n) (mAnimations s)) with (@None (nat * Animation));
    [reflexivity|].
  symmetry. apply list_find_None. apply Forall_forall. exact H.
Qed.

(** C7. For a name that no animation of the collection has,
    [takeAnimation(name)] logs the warning and does nothing else: the
    members (and so the count, the current index and every element) are
    unchanged and the log holds no pre-remove, post-remove or
    count-changed notification. *)
Theorem takeAnimation_QString_absent n s :
  (forall a, a ∈ mAnimations s -> name a <> n) ->
  takeAnimation_QString n s = Done tt s [qWarning (DoesntExist n)].
Proof.
  intros H. unfold takeAnimation_QString.
  rewrite bind_gets, (findAnimationWithName_absent n s H). reflexivity.
Qed.

Lemma takeAnimation_QString_absent_witness :
  takeAnimation_QString "Walk" two_animations =
    Done tt two_animations [qWarning (DoesntExist "Walk")].
Proof.
  apply (takeAnimation_QString_absent "Walk" two_animations).
  intros a Ha. vm_compute in Ha.
  apply elem_of_cons in Ha as [->|Ha]; [vm_compute; discriminate|].
  apply elem_of_cons in Ha as [->|Ha]; [vm_compute; discriminate|].
  inversion Ha.
Defined.

(** What [takeAnimation(name)] does for a name found at position [r], in
    a state whose current index is in its range: the current index is
    decremented only when it is at least 1 and [r] is at most it; the
    decrement to -1 is refused by the setter. *)
Lemma takeAnimation_QString_result n s r :
  findAnimationWithName n s = Some r ->
  index_in_range s ->
  exists s' mid,
    takeAnimation_QString n s =
      Done tt s'
        (preAnimationRemoved (Z.of_nat r) :: mid ++
         [postAnimationRemoved (Z.of_nat r); animationCountChanged]) /\
    Forall (fun e => e = currentAnimationIndexChanged \/
                     e = qWarning (InvalidIndex (-1))) mid /\
    mAnimations s' = erase (Z.of_nat r) (mAnimations s) /\
    mAnimationsCreated s' = mAnimationsCreated s /\
    mCurrentAnimationIndex s' =
      if (Z.of_nat r <=? mCurrentAnimationIndex s) && (1 <=? mCurrentAnimationIndex s)
      then mCurrentAnimationIndex s - 1
      else mCurrentAnimationIndex s.
Proof.
  intros Hfind [Hlo Hhi]. unfold takeAnimation_QString.
  rewrite bind_gets, Hfind. cbv beta iota.
  rewrite bind_emit, bind_gets.
  assert (Hfirst :
    exists w, (if animationCount s =? 1 then setCurrentAnimationIndex (-1) else ret tt) s
              = Done tt s w /\
              Forall (fun e => e = currentAnimationIndexChanged \/
                               e = qWarning (InvalidIndex (-1))) w).
  { destruct (animationCount s =? 1).
    - eexists. split; [apply minus_one_is_refused | log_shape].
    - eexists. split; [reflexivity | constructor]. }
  destruct Hfirst as (w & Ew & Hw).
  rewrite (bind_Done _ _ _ _ _ _ Ew), bind_gets.
  destruct (Z.of_nat r <=? mCurrentAnimationIndex s) eqn:E1; cbv beta iota.
  - destruct (1 <=? mCurrentAnimationIndex s) eqn:E2; cbn [andb].
    + destruct (at_in_range (mAnimations s) (mCurrentAnimationIndex s - 1)) as [b Hb];
        [fold (animationCount s); lia|].
      rewrite (bind_Done _ _ _ _ _ _
                 (setCurrentAnimationIndex_changes _ s b Hb ltac:(lia))).
      rewrite bind_modify, bind_emit.
      eexists _, (w ++ [currentAnimationIndexChanged]). split.
      * cbn. rewrite <- app_assoc. reflexivity.
      * split; [apply Forall_app; split; [exact Hw | log_shape]|].
        cbn. auto.
    + assert (E0 : mCurrentAnimationIndex s - 1 = -1) by (apply Z.leb_le in E1; apply Z.leb_gt in E2; lia). rewrite E0.
      rewrite (bind_Done _ _ _ _ _ _ (minus_one_is_refused s)).
      rewrite bind_modify, bind_emit.
      eexists _, (w ++ [qWarning (InvalidIndex (-1))]). split.
      * cbn. rewrite <- app_assoc. reflexivity.
      * split; [apply Forall_app; split; [exact Hw | log_shape]|].
        cbn. auto.
  - cbn [andb]. rewrite bind_ret, bind_modify, bind_emit.
    eexists _, w. split; [reflexivity|]. split; [exact Hw|]. cbn. auto.
Qed.

(** ** Access and detachment by index *)

Lemma animationAt_element index s a :
  at_ (mAnimations s) index = Some a ->
  animationAt index s = Done (Some a) s [].
Proof.
  intros Ha. pose proof (proj1 (at_Some _ _ _) Ha) as [Hr _].
  unfold animationAt.
  rewrite (bind_quiet _ _ _ _ _ (isValidIndexOrWarn_accepts index s
             ltac:(unfold animationCount; lia))).
  cbv beta. cbn [negb]. cbv iota. rewrite bind_gets, Ha. reflexivity.
Qed.

Lemma animationAt_refused index s :
  index < 0 \/ animationCount s < index ->
  animationAt index s = Done None s [qWarning (InvalidIndex index)].
Proof.
  intros H. unfold animationAt.
  rewrite (bind_Done _ _ _ _ _ _ (isValidIndexOrWarn_rejects index s H)).
  reflexivity.
Qed.

Lemma animationAt_size s : animationAt (animationCount s) s = OutOfBounds.
Proof.
  pose proof (size_nonneg (mAnimations s)) as Hs. unfold animationAt.
  rewrite (bind_quiet _ _ _ _ _ (isValidIndexOrWarn_accepts (animationCount s) s
             ltac:(unfold animationCount; lia))).
  cbv beta. cbn [negb]. cbv iota. rewrite bind_gets.
  replace (at_ (mAnimations s) (animationCount s)) with (@None Animation);
    [reflexivity|].
  symmetry. apply at_None. right. unfold animationCount. lia.
Qed.

(** C8 (the code departs from it). The index [size] is outside
    [0, size - 1], yet [animationAt] neither warns nor returns none for
    it: the validation accepts it and the vector is read one past its
    last element.  On the empty collection that is [animationAt(0)]. *)
Theorem animationAt_reads_past_the_end :
  animationAt 0 initial = OutOfBounds /\
  isValidIndexOrWarn 0 initial = Done true initial [] /\
  forall s, animationAt (animationCount s) s = OutOfBounds.
Proof.
  split; [reflexivity|]. split; [reflexivity|]. apply animationAt_size.
Qed.

Lemma takeAnimation_int_element index s a :
  at_ (mAnimations s) index = Some a ->
  takeAnimation_int index s =
    Done (Some a) (set_mAnimations (erase index (mAnimations s)) s)
      [preAnimationRemoved index; postAnimationRemoved index; animationCountChanged].
Proof.
  intros Ha. pose proof (proj1 (at_Some _ _ _) Ha) as [Hr _].
  unfold takeAnimation_int.
  rewrite (bind_quiet _ _ _ _ _ (isValidIndexOrWarn_accepts index s
             ltac:(unfold animationCount; lia))).
  cbv beta. cbn [negb]. cbv iota. rewrite bind_emit, bind_gets, Ha. reflexivity.
Qed.

Lemma takeAnimation_int_refused index s :
  index < 0 \/ animationCount s < index ->
  takeAnimation_int index s = Done None s [qWarning (InvalidIndex index)].
Proof.
  intros H. unfold takeAnimation_int.
  rewrite (bind_Done _ _ _ _ _ _ (isValidIndexOrWarn_rejects index s H)).
  reflexivity.
Qed.

Lemma takeAnimation_int_size s : takeAnimation_int (animationCount s) s = OutOfBounds.
Proof.
  pose proof (size_nonneg (mAnimations s)) as Hs. unfold takeAnimation_int.
  rewrite (bind_quiet _ _ _ _ _ (isValidIndexOrWarn_accepts (animationCount s) s
             ltac:(unfold animationCount; lia))).
  cbv beta. cbn [negb]. cbv iota. rewrite bind_emit, bind_gets.
  replace (at_ (mAnimations s) (animationCount s)) with (@None Animation);
    [reflexivity|].
  symmetry. apply at_None. right. unfold animationCount. lia.
Qed.

(** ** Reset *)

Lemma reset_result s :
  reset s =
    Done tt
      {| mAnimations := [];
         mCurrentAnimationIndex := mCurrentAnimationIndex s;
         mCurrentAnimationPlayback := Playback.initial;
         mAnimationsCreated := 0 |} [].
Proof. reflexivity. Qed.

(** C9 (the code departs from it). [reset()] empties the vector, resets
    the playback and zeroes the counter, but leaves the current index as
    it was: after one generated animation (current index 0) and a reset,
    the current index is still 0, not -1, and [currentAnimation()] reads
    the empty vector at 0. *)
Theorem reset_keeps_current_index :
  exists s',
    reset one_animation = Done tt s' [] /\
    mAnimations s' = [] /\
    mCurrentAnimationPlayback s' = Playback.initial /\
    mAnimationsCreated s' = 0 /\
    mCurrentAnimationIndex s' = 0 /\
    s' <> initial /\
    currentAnimation s' = OutOfBounds.
Proof.
  eexists. split; [apply reset_result|].
  repeat split; try reflexivity.
  intros H. apply (f_equal mCurrentAnimationIndex) in H. discriminate H.
Qed.

(** ** Generated animations *)

Lemma addNewAnimation_refused canvasSize p s r :
  findAnimationWithName (peekNextGeneratedName s) s = Some r ->
  addNewAnimation canvasSize p s =
    Done EmptyString s [qWarning (AlreadyExists (peekNextGeneratedName s))].
Proof.
  intros H. unfold addNewAnimation. rewrite !bind_gets, H. reflexivity.
Qed.

(** What [addNewAnimation] does when the generated name is free: the
    notifications carry [size - 1], the animation is appended, so it sits
    at position [size], and no count-changed notification is emitted. *)
Lemma addNewAnimation_result canvasSize p s :
  findAnimationWithName (peekNextGeneratedName s) s = None ->
  exists s' mid,
    addNewAnimation canvasSize p s =
      Done (peekNextGeneratedName s) s'
        (preAnimationAdded (animationCount s - 1) :: mid ++
         [postAnimationAdded (animationCount s - 1)]) /\
    (mid = [] \/ mid = [currentAnimationIndexChanged]) /\
    mAnimations s' =
      mAnimations s ++ [newAnimation canvasSize p (peekNextGeneratedName s)] /\
    mAnimationsCreated s' = wrap_int (mAnimationsCreated s + 1) /\
    mCurrentAnimationIndex s' =
      if animationCount s =? 0 then 0 else mCurrentAnimationIndex s.
Proof.
  intros H. unfold addNewAnimation. rewrite !bind_gets, H. cbv beta iota.
  rewrite bind_gets, bind_emit, !bind_modify, bind_gets.
  set (a := newAnimation canvasSize p (peekNextGeneratedName s)).
  set (s2 := set_mAnimations _ _).
  assert (Hcount : animationCount s2 = animationCount s + 1).
  { unfold animationCount, s2. cbn. rewrite size_app. reflexivity. }
  pose proof (size_nonneg (mAnimations s)) as Hs. fold (animationCount s) in Hs.
  destruct (animationCount s2 =? 1) eqn:E1.
  - assert (E0 : (animationCount s =? 0) = true) by lia. rewrite E0.
    destruct (Z.eq_dec 0 (mCurrentAnimationIndex s2)) as [E|Hne].
    + rewrite (bind_quiet _ _ _ _ _
                 (setCurrentAnimationIndex_same 0 s2 ltac:(lia) E)).
      rewrite bind_emit. unfold ret. eexists _, []. split; [reflexivity|].
      split; [now left|]. cbn. cbn in E. auto.
    + destruct (at_in_range (mAnimations s2) 0) as [b Hb];
        [fold (animationCount s2); lia|].
      rewrite (bind_Done _ _ _ _ _ _ (setCurrentAnimationIndex_changes 0 s2 b Hb Hne)).
      rewrite bind_emit. unfold ret. eexists _, [currentAnimationIndexChanged].
      split; [reflexivity|]. split; [now right|]. cbn. auto.
  - assert (E0 : (animationCount s =? 0) = false) by lia. rewrite E0.
    rewrite bind_ret, bind_emit. unfold ret. eexists _, []. split; [reflexivity|].
    split; [now left|]. cbn. auto.
Qed.

(** C3 (the code departs from it). [addNewAnimation] emits its pre-add
    and post-add notifications but no count-changed notification, though
    the size changes: on a collection of one animation it takes the size
    from 1 to 2 and the log is the pre-add and the post-add notification
    only; on the empty collection the log has the current-index change
    between the two.  ([addAnimation] and both [takeAnimation] emit
    count-changed after the post notification.) *)
Theorem addNewAnimation_emits_no_count_change :
  addNewAnimation canvas 2 one_animation =
    Done "Animation 2" two_animations [preAnimationAdded 0; postAnimationAdded 0] /\
  animationCount one_animation = 1 /\
  animationCount two_animations = 2 /\
  addNewAnimation canvas 1 initial =
    Done "Animation 1" one_animation
      [preAnimationAdded (-1); currentAnimationIndexChanged; postAnimationAdded (-1)] /\
  addAnimation (generated 2 2) 1 one_animation =
    Done tt (set_mAnimationsCreated 1 two_animations)
      [preAnimationAdded 1; postAnimationAdded 1; animationCountChanged].
Proof. repeat split; reflexivity. Qed.

(** C4 (the code departs from it). The index that [addNewAnimation]
    announces is the size before the append minus one, not the position
    the new animation occupies: on the empty collection the notifications
    carry -1 and the animation lands at position 0; on a collection of two
    they carry 1 and the animation lands at position 2, position 1 being
    the animation appended before. *)
Theorem addNewAnimation_announces_size_minus_one :
  animationCount initial = 0 /\
  addNewAnimation canvas 1 initial =
    Done "Animation 1" one_animation
      [preAnimationAdded (-1); currentAnimationIndexChanged; postAnimationAdded (-1)] /\
  at_ (mAnimations one_animation) 0 = Some (generated 1 1) /\
  animationCount two_animations = 2 /\
  addNewAnimation canvas 3 two_animations =
    Done "Animation 3" three_animations [preAnimationAdded 1; postAnimationAdded 1] /\
  at_ (mAnimations three_animations) 2 = Some (generated 3 3) /\
  at_ (mAnimations three_animations) 1 = Some (generated 2 2).
Proof. repeat split; reflexivity. Qed.

(** ** The range of the current index *)

Lemma index_in_range_initial : index_in_range initial.
Proof. unfold index_in_range. change (-1 <= -1 <= 0 - 1). lia. Qed.

Lemma empty_needs_no_selection s :
  animationCount s = 0 -> index_in_range s -> mCurrentAnimationIndex s = -1.
Proof. unfold index_in_range. intros E. rewrite E. lia. Qed.

(** C1 (the code departs from it). The current index leaves
    [-1, size - 1]: from the reachable collection of one generated
    animation, whose current index 0 is in the range, removing that
    animation by name leaves the empty vector with current index 0,
    because the setter refuses -1; detaching it by index and [reset()]
    leave the index at 0 as well. *)
Theorem current_index_leaves_range :
  reachable one_animation /\
  index_in_range one_animation /\
  run (TakeAnimation_QString "Animation 1") one_animation =
    Done tt emptied
      [preAnimationRemoved 0; qWarning (InvalidIndex (-1)); qWarning (InvalidIndex (-1));
       postAnimationRemoved 0; animationCountChanged] /\
  run (TakeAnimation_int 0) one_animation =
    Done tt emptied
      [preAnimationRemoved 0; postAnimationRemoved 0; animationCountChanged] /\
  run ResetSystem one_animation = Done tt after_reset [] /\
  animationCount emptied = 0 /\
  mCurrentAnimationIndex emptied = 0 /\
  ~ index_in_range emptied /\
  ~ index_in_range after_reset.
Proof.
  split; [apply reachable_one_animation|].
  split; [unfold index_in_range; change (-1 <= 0 <= 1 - 1); lia|].
  repeat split; try reflexivity.
  - intros H. apply empty_needs_no_selection in H; [discriminate H | reflexivity].
  - intros H. apply empty_needs_no_selection in H; [discriminate H | reflexivity].
Qed.

(** C2 (the code departs from it). Removing the only animation by name
    does not set the current index to -1: both calls of the setter with
    -1 are refused with a warning, the index stays 0 over the empty
    vector and [currentAnimation()] then reads it out of bounds instead
    of returning none.  For the same reason removing position 0 while
    the current index is 0 in a longer collection leaves the index at 0
    instead of decrementing it. *)
Theorem takeAnimation_QString_cannot_deselect :
  takeAnimation_QString "Animation 1" one_animation =
    Done tt emptied
      [preAnimationRemoved 0; qWarning (InvalidIndex (-1)); qWarning (InvalidIndex (-1));
       postAnimationRemoved 0; animationCountChanged] /\
  mCurrentAnimationIndex emptied = 0 /\
  currentAnimation emptied = OutOfBounds /\
  takeAnimation_QString "Animation 1" two_animations =
    Done tt first_detached
      [preAnimationRemoved 0; qWarning (InvalidIndex (-1));
       postAnimationRemoved 0; animationCountChanged] /\
  mCurrentAnimationIndex two_animations = 0 /\
  mCurrentAnimationIndex first_detached = 0.
Proof. repeat split; reflexivity. Qed.

(** ** Operations that keep the current index in its range

    Appending, inserting and reading keep the current index in
    [-1, size - 1]; so do the setter for an index below the size and the
    removal by name from a collection of two or more. *)

Lemma findAnimationWithName_Some n s r :
  findAnimationWithName n s = Some r ->
  exists a, mAnimations s !! r = Some a /\ name a = n.
Proof.
  unfold findAnimationWithName. intros H.
  destruct (list_find (fun a => name a = n) (mAnimations s)) as [[i a]|] eqn:E;
    [|discriminate].
  cbn in H. injection H as ->. apply list_find_Some in E as (Ha & Hn & _). eauto.
Qed.

Lemma setCurrentAnimationIndex_keeps_range index s s' log :
  index < animationCount s ->
  index_in_range s ->
  setCurrentAnimationIndex index s = Done tt s' log ->
  index_in_range s'.
Proof.
  intros Hlt Hr E. destruct (Z_lt_le_dec index 0) as [Hneg|Hpos].
  - rewrite setCurrentAnimationIndex_rejects in E by (left; exact Hneg).
    injection E as <- _. exact Hr.
  - destruct (Z.eq_dec index (mCurrentAnimationIndex s)) as [Heq|Hne].
    + rewrite setCurrentAnimationIndex_same in E by (try lia; exact Heq).
      injection E as <- _. exact Hr.
    + destruct (at_in_range (mAnimations s) index) as [b Hb];
        [fold (animationCount s); lia|].
      rewrite (setCurrentAnimationIndex_changes index s b Hb Hne) in E.
      injection E as <- _. unfold index_in_range, animationCount. cbn.
      fold (animationCount s). lia.
Qed.

Lemma addNewAnimation_keeps_range canvasSize p s n s' log :
  index_in_range s ->
  addNewAnimation canvasSize p s = Done n s' log ->
  index_in_range s'.
Proof.
  intros [Hlo Hhi] E.
  destruct (findAnimationWithName (peekNextGeneratedName s) s) as [r|] eqn:F.
  - rewrite (addNewAnimation_refused canvasSize p s r F) in E.
    injection E as _ <- _. split; assumption.
  - destruct (addNewAnimation_result canvasSize p s F) as (s2 & mid & E2 & _ & Hv & _ & Hc).
    rewrite E2 in E. injection E as _ <- _.
    pose proof (size_nonneg (mAnimations s)) as Hs.
    unfold index_in_range, animationCount in *. rewrite Hv, Hc, size_app.
    change (size [newAnimation canvasSize p (peekNextGeneratedName s)]) with 1.
    destruct (size (mAnimations s) =? 0) eqn:E0; lia.
Qed.

Lemma addAnimation_present a index s :
  indexOf a (mAnimations s) <> -1 ->
  addAnimation a index s =
    Done tt s [qWarning (AlreadyExistsAt (name a) (indexOf a (mAnimations s)))].
Proof.
  intros H. unfold addAnimation. rewrite bind_gets.
  destruct (indexOf a (mAnimations s) =? -1) eqn:E; [lia | reflexivity].
Qed.

Lemma addAnimation_invalid a index s :
  indexOf a (mAnimations s) = -1 ->
  index < 0 \/ animationCount s < index ->
  addAnimation a index s = Done tt s [qWarning (InvalidIndex index)].
Proof.
  intros Hnew H. unfold addAnimation. rewrite bind_gets, Hnew.
  change (negb (-1 =? -1)) with false. cbv iota.
  rewrite (bind_Done _ _ _ _ _ _ (isValidIndexOrWarn_rejects index s H)).
  reflexivity.
Qed.

Lemma addAnimation_keeps_range a index s s' log :
  index_in_range s ->
  addAnimation a index s = Done tt s' log ->
  index_in_range s'.
Proof.
  intros [Hlo Hhi] E.
  destruct (Z.eq_dec (indexOf a (mAnimations s)) (-1)) as [Hnew|Hold].
  - destruct (Z_lt_le_dec index 0) as [Hneg|Hpos].
    { rewrite addAnimation_invalid in E by (auto; left; exact Hneg).
      injection E as <- _. split; assumption. }
    destruct (Z_lt_le_dec (animationCount s) index) as [Hbig|Hsmall].
    { rewrite addAnimation_invalid in E by (auto; right; exact Hbig).
      injection E as <- _. split; assumption. }
    destruct (addAnimation_result a index s Hnew (conj Hpos Hsmall) Hhi)
      as (s2 & mid & E2 & _ & Hv & _ & Hc).
    rewrite E2 in E. injection E as <- _.
    unfold insertion_rule in Hc. unfold index_in_range, animationCount in *.
    rewrite Hv, Hc, size_insert_.
    destruct (size (mAnimations s) =? 0) eqn:E0; [lia|].
    destruct (index <=? mCurrentAnimationIndex s) eqn:E1; lia.
  - rewrite addAnimation_present in E by exact Hold.
    injection E as <- _. split; assumption.
Qed.

Lemma takeAnimation_QString_keeps_range n s s' log :
  animationCount s <> 1 ->
  index_in_range s ->
  takeAnimation_QString n s = Done tt s' log ->
  index_in_range s'.
Proof.
  intros Hmany Hr E.
  destruct (findAnimationWithName n s) as [r|] eqn:F.
  - destruct (takeAnimation_QString_result n s r F Hr) as (s2 & mid & E2 & _ & Hv & _ & Hc).
    rewrite E2 in E. injection E as <- _.
    destruct (findAnimationWithName_Some n s r F) as (a & Ha & _).
    apply lookup_lt_Some in Ha. destruct Hr as [Hlo Hhi].
    unfold index_in_range, animationCount in *. rewrite Hv, Hc.
    rewrite size_erase by (unfold size; lia). unfold size in *.
    destruct (Z.of_nat r <=? mCurrentAnimationIndex s) eqn:E1;
      destruct (1 <=? mCurrentAnimationIndex s) eqn:E3; cbn [andb];
      try apply Z.leb_le in E1; try apply Z.leb_gt in E1;
      try apply Z.leb_le in E3; try apply Z.leb_gt in E3; lia.
  - unfold takeAnimation_QString in E. rewrite bind_gets, F in E.
    injection E as <- _. exact Hr.
Qed.

Lemma read_keeps_range json s s' log :
  index_in_range s ->
  read json s = Done tt s' log ->
  index_in_range s'.
Proof.
  intros Hr E. destruct json as [p f fc fx fy fw fh sc lp | animations sc lp pl].
  - unfold read in E.
    rewrite (bind_quiet takeNextGeneratedName _ s (peekNextGeneratedName s)
               (set_mAnimationsCreated (wrap_int (mAnimationsCreated s + 1)) s) eq_refl) in E.
    cbv beta zeta in E.
    match type of E with
    | bind (addAnimation ?a 0) _ ?s1 = _ =>
        destruct (addAnimation a 0 s1) as [[] s2 l2|] eqn:E2;
          [rewrite (bind_Done _ _ _ _ _ _ E2) in E | rewrite (bind_OutOfBounds _ _ _ E2) in E; discriminate E];
          apply addAnimation_keeps_range in E2; [|exact Hr]
    end.
    rewrite !bind_playback in E. cbn in E. injection E as <- _. exact E2.
  - cbn in E. injection E as <- _. destruct Hr as [Hlo Hhi].
    pose proof (size_nonneg animations) as Hs.
    unfold index_in_range, animationCount in *. cbn. rewrite size_app. lia.
Qed.

(** ** Lookup by name *)


(** For a name that is absent the function warns and then dereferences
    the [end()] iterator. *)
Lemma animationAtNameOrWarn_absent n s :
  findAnimationWithName n s = None ->
  animationAtNameOrWarn n s = OutOfBounds.
Proof.
  intros F. unfold animationAtNameOrWarn. rewrite bind_gets, F. reflexivity.
Qed.

(** * Further properties *)

(** ** The setter in every state *)

Lemma setCurrentAnimationIndex_cases index s :
  setCurrentAnimationIndex index s =
    if (index <? 0) || (index >? animationCount s) then
      Done tt s [qWarning (InvalidIndex index)]
    else if index =? mCurrentAnimationIndex s then Done tt s []
    else
      match at_ (mAnimations s) index with
      | Some a =>
          Done tt
            (set_mCurrentAnimationPlayback
               (Playback.setAnimation (Some a) (mCurrentAnimationPlayback s))
               (set_mCurrentAnimationIndex index s))
            [currentAnimationIndexChanged]
      | None => OutOfBounds
      end.
Proof.
  destruct ((index <? 0) || (index >? animationCount s)) eqn:E.
  - apply setCurrentAnimationIndex_rejects. lia.
  - destruct (index =? mCurrentAnimationIndex s) eqn:E1.
    + apply setCurrentAnimationIndex_same; lia.
    + destruct (at_ (mAnimations s) index) as [a|] eqn:Ha.
      * apply setCurrentAnimationIndex_changes; [exact Ha | lia].
      * apply at_None in Ha. fold (animationCount s) in Ha.
        assert (E2 : index = animationCount s) by lia. subst index.
        apply setCurrentAnimationIndex_past_the_end. lia.
Qed.

(** The three ways the setter returns. *)
Lemma setCurrentAnimationIndex_returns index s s' log :
  setCurrentAnimationIndex index s = Done tt s' log ->
  (s' = s /\ log = [qWarning (InvalidIndex index)] /\
   (index < 0 \/ animationCount s < index)) \/
  (s' = s /\ log = [] /\ index = mCurrentAnimationIndex s) \/
  (exists a,
     at_ (mAnimations s) index = Some a /\
     index <> mCurrentAnimationIndex s /\
     log = [currentAnimationIndexChanged] /\
     s' = set_mCurrentAnimationPlayback
            (Playback.setAnimation (Some a) (mCurrentAnimationPlayback s))
            (set_mCurrentAnimationIndex index s)).
Proof.
  rewrite setCurrentAnimationIndex_cases.
  destruct ((index <? 0) || (index >? animationCount s)) eqn:E.
  - intros H. injection H as <- <-. left. repeat split. lia.
  - destruct (index =? mCurrentAnimationIndex s) eqn:E1.
    + intros H. injection H as <- <-. right. left. repeat split. lia.
    + destruct (at_ (mAnimations s) index) as [a|] eqn:Ha; [|discriminate].
      intros H. injection H as <- <-. right. right. exists a.
      repeat split. lia.
Qed.

(** ** Rules for [keeps] *)

Lemma keeps_bind {A B} P (m : M A) (k : A -> M B) :
  keeps P m -> (forall a, keeps P (k a)) -> keeps P (bind m k).
Proof.
  intros Hm Hk s b s' log HP E. unfold bind in E.
  destruct (m s) as [a s1 l1|] eqn:E1; [|discriminate].
  destruct (k a s1) as [b' s2 l2|] eqn:E2; [|discriminate].
  injection E as <- <- <-. eapply Hk; [|exact E2]. eapply Hm; eauto.
Qed.

Lemma keeps_ret {A} P (a : A) : keeps P (ret a).
Proof. intros s b s' log HP E. injection E as _ <- _. exact HP. Qed.

Lemma keeps_gets {A} P (f : AnimationSystem -> A) : keeps P (gets f).
Proof. intros s b s' log HP E. injection E as _ <- _. exact HP. Qed.

Lemma keeps_emit P e : keeps P (emit e).
Proof. intros s b s' log HP E. injection E as _ <- _. exact HP. Qed.

Lemma keeps_fault {A} P : keeps P (@fault A).
Proof. intros s b s' log HP E. discriminate E. Qed.

Lemma keeps_unchecked {A} P (o : option A) : keeps P (unchecked o).
Proof. destruct o; [apply keeps_ret | apply keeps_fault]. Qed.

Lemma keeps_modify P f : (forall s, P s -> P (f s)) -> keeps P (modify f).
Proof. intros Hf s b s' log HP E. injection E as _ <- _. apply Hf, HP. Qed.

Lemma keeps_playback P f :
  (forall s p, P s -> P (set_mCurrentAnimationPlayback p s)) ->
  keeps P (playback f).
Proof. intros Hf. apply keeps_modify. intros s HP. apply Hf, HP. Qed.

Lemma keeps_if {A} P (b : bool) (m1 m2 : M A) :
  keeps P m1 -> keeps P m2 -> keeps P (if b then m1 else m2).
Proof. destruct b; auto. Qed.

Lemma keeps_isValidIndexOrWarn P index : keeps P (isValidIndexOrWarn index).
Proof.
  unfold isValidIndexOrWarn. apply keeps_bind; [apply keeps_gets|].
  intros n. apply keeps_if; [|apply keeps_ret].
  apply keeps_bind; [apply keeps_emit | intros _; apply keeps_ret].
Qed.

Ltac keeps_with leaf :=
  repeat
    first
      [ leaf
      | apply keeps_ret | apply keeps_gets | apply keeps_emit | apply keeps_fault
      | apply keeps_unchecked | apply keeps_isValidIndexOrWarn
      | apply keeps_modify; intros; solve [auto]
      | apply keeps_playback; intros; solve [auto]
      | apply keeps_bind; [|intros ?]
      | match goal with
        | |- keeps _ (match ?x with _ => _ end) => destruct x
        end ].

(** An operation keeps [P] when the setter does and [P] does not depend
    on the vector, the playback or an increment of the counter. *)
Section Keeps.

Variable P : AnimationSystem -> Prop.
Hypothesis P_vector : forall s v, P s -> P (set_mAnimations v s).
Hypothesis P_playback : forall s p, P s -> P (set_mCurrentAnimationPlayback p s).
Hypothesis P_counter :
  forall s, P s -> P (set_mAnimationsCreated (wrap_int (mAnimationsCreated s + 1)) s).
Hypothesis P_setter : forall index, keeps P (setCurrentAnimationIndex index).

Lemma keeps_addNewAnimation canvasSize p : keeps P (addNewAnimation canvasSize p).
Proof. unfold addNewAnimation. keeps_with ltac:(apply P_setter). Qed.

Lemma keeps_addAnimation a index : keeps P (addAnimation a index).
Proof. unfold addAnimation. keeps_with ltac:(apply P_setter). Qed.

Lemma keeps_takeAnimation_QString n : keeps P (takeAnimation_QString n).
Proof. unfold takeAnimation_QString. keeps_with ltac:(apply P_setter). Qed.

Lemma keeps_takeAnimation_int index : keeps P (takeAnimation_int index).
Proof. unfold takeAnimation_int. keeps_with ltac:(apply P_setter). Qed.

Lemma keeps_read json : keeps P (read json).
Proof.
  destruct json; unfold read, takeNextGeneratedName;
    keeps_with ltac:(apply keeps_addAnimation).
Qed.

Lemma keeps_run o : resets o = false -> keeps P (run o).
Proof.
  destruct o; cbn [run resets]; intros H; try discriminate H.
  - apply P_setter.
  - apply keeps_bind; [apply keeps_addNewAnimation | intros ?; apply keeps_ret].
  - apply keeps_addAnimation.
  - apply keeps_takeAnimation_QString.
  - apply keeps_bind; [apply keeps_takeAnimation_int | intros ?; apply keeps_ret].
  - apply keeps_read.
Qed.

End Keeps.

(** ** What no operation does to the current index and the counter *)

Lemma setCurrentAnimationIndex_keeps_selected index :
  keeps (fun s => 0 <= mCurrentAnimationIndex s) (setCurrentAnimationIndex index).
Proof.
  intros s [] s' log HP E.
  destruct (setCurrentAnimationIndex_returns index s s' log E)
    as [(-> & _) | [(-> & _) | (a & Ha & _ & _ & ->)]]; try exact HP.
  apply at_Some in Ha. cbn. lia.
Qed.

Lemma setCurrentAnimationIndex_keeps_lower_bound index :
  keeps (fun s => -1 <= mCurrentAnimationIndex s) (setCurrentAnimationIndex index).
Proof.
  intros s [] s' log HP E.
  destruct (setCurrentAnimationIndex_returns index s s' log E)
    as [(-> & _) | [(-> & _) | (a & Ha & _ & _ & ->)]]; try exact HP.
  apply at_Some in Ha. cbn. lia.
Qed.

(** X1. No operation deselects: once the current index is 0 or more, it
    is 0 or more after every operation that returns, removals and
    [reset()] included.  (The setter refuses -1, and nothing else assigns
    the index.) *)
Theorem no_operation_deselects o s s' log :
  run o s = Done tt s' log ->
  0 <= mCurrentAnimationIndex s ->
  0 <= mCurrentAnimationIndex s'.
Proof.
  intros E HP. destruct (resets o) eqn:R.
  - destruct o; try discriminate R. cbn [run] in E. rewrite reset_result in E.
    injection E as <- _. exact HP.
  - revert E. apply (keeps_run (fun s => 0 <= mCurrentAnimationIndex s));
      auto using setCurrentAnimationIndex_keeps_selected.
Qed.

Lemma no_operation_deselects_witness :
  0 <= mCurrentAnimationIndex emptied.
Proof.
  apply (no_operation_deselects (TakeAnimation_QString "Animation 1") one_animation emptied
           [preAnimationRemoved 0; qWarning (InvalidIndex (-1));
            qWarning (InvalidIndex (-1)); postAnimationRemoved 0;
            animationCountChanged]).
  - reflexivity.
  - cbn. lia.
Defined.

(** X2. In every reachable state the current index is at least -1: no
    sequence of operations takes it below the value that stands for no
    selection. *)
Theorem reachable_index_at_least_minus_one s :
  reachable s -> -1 <= mCurrentAnimationIndex s.
Proof.
  induction 1 as [|s o s' log Hs IH E].
  - cbn. lia.
  - destruct (resets o) eqn:R.
    + destruct o; try discriminate R. cbn [run] in E. rewrite reset_result in E.
      injection E as <- _. exact IH.
    + revert E.
      apply (keeps_run (fun s => -1 <= mCurrentAnimationIndex s));
        auto using setCurrentAnimationIndex_keeps_lower_bound.
Qed.

Lemma reachable_index_at_least_minus_one_witness :
  -1 <= mCurrentAnimationIndex two_detached.
Proof.
  apply (reachable_index_at_least_minus_one two_detached). apply reachable_two_detached.
Defined.

Lemma peekNextGeneratedName_not_empty s : peekNextGeneratedName s <> EmptyString.
Proof. unfold peekNextGeneratedName. cbn. discriminate. Qed.

Lemma addNewAnimation_returns canvasSize p s n s' log :
  addNewAnimation canvasSize p s = Done n s' log ->
  (n = EmptyString /\ s' = s /\
   findAnimationWithName (peekNextGeneratedName s) s <> None) \/
  (n = peekNextGeneratedName s /\
   mAnimationsCreated s' = wrap_int (mAnimationsCreated s + 1) /\
   findAnimationWithName (peekNextGeneratedName s) s = None).
Proof.
  intros E. destruct (findAnimationWithName (peekNextGeneratedName s) s) as [r|] eqn:F.
  - rewrite (addNewAnimation_refused canvasSize p s r F) in E.
    injection E as <- <- _. left. repeat split. discriminate.
  - destruct (addNewAnimation_result canvasSize p s F) as (s2 & mid & E2 & _ & _ & Hc & _).
    rewrite E2 in E. injection E as <- <- _. right. auto.
Qed.

(** ** The setter's signal *)

(** X4. Whenever [setCurrentAnimationIndex] returns, it has emitted
    [currentAnimationIndexChanged] exactly when the current index is not
    what it was, and it has changed neither the vector nor the counter of
    generated names. *)
Theorem setCurrentAnimationIndex_signals_change index s s' log :
  setCurrentAnimationIndex index s = Done tt s' log ->
  (mCurrentAnimationIndex s' <> mCurrentAnimationIndex s <->
   log = [currentAnimationIndexChanged]) /\
  (mCurrentAnimationIndex s' = mCurrentAnimationIndex s ->
   currentAnimationIndexChanged ∉ log) /\
  mAnimations s' = mAnimations s /\
  mAnimationsCreated s' = mAnimationsCreated s.
Proof.
  intros E.
  destruct (setCurrentAnimationIndex_returns index s s' log E)
    as [(-> & -> & _) | [(-> & -> & _) | (a & _ & Hne & -> & ->)]].
  - split; [split; [intros H; congruence | intros H; discriminate H]|].
    split; [|split; reflexivity].
    intros _ H. apply list_elem_of_singleton in H. discriminate H.
  - split; [split; [intros H; congruence | intros H; discriminate H]|].
    split; [|split; reflexivity]. intros _ H. apply elem_of_nil in H. exact H.
  - split; [split; [reflexivity | intros _; cbn; congruence]|].
    split; [|split; reflexivity]. cbn. intros H. exfalso. apply Hne. exact H.
Qed.

Lemma setCurrentAnimationIndex_signals_change_witness :
  (mCurrentAnimationIndex (set_mCurrentAnimationPlayback
                             (bound_to (Some (generated 2 2)))
                             (set_mCurrentAnimationIndex 1 two_animations)) <>
   mCurrentAnimationIndex two_animations <->
   [currentAnimationIndexChanged] = [currentAnimationIndexChanged]) /\
  (mCurrentAnimationIndex (set_mCurrentAnimationPlayback
                             (bound_to (Some (generated 2 2)))
                             (set_mCurrentAnimationIndex 1 two_animations)) =
   mCurrentAnimationIndex two_animations ->
   currentAnimationIndexChanged ∉ [currentAnimationIndexChanged]) /\
  mAnimations (set_mCurrentAnimationPlayback
                 (bound_to (Some (generated 2 2)))
                 (set_mCurrentAnimationIndex 1 two_animations)) =
    mAnimations two_animations /\
  mAnimationsCreated (set_mCurrentAnimationPlayback
                        (bound_to (Some (generated 2 2)))
                        (set_mCurrentAnimationIndex 1 two_animations)) =
    mAnimationsCreated two_animations.
Proof.
  apply (setCurrentAnimationIndex_signals_change 1 two_animations).
  reflexivity.
Defined.

(** ** Generated animations, continued *)

Lemma findAnimationWithName_taken n s :
  (exists a, a ∈ mAnimations s /\ name a = n) <->
  findAnimationWithName n s <> None.
Proof.
  unfold findAnimationWithName. split.
  - intros (a & Ha & Hn) H.
    destruct (list_find (fun a => name a = n) (mAnimations s)) as [[i b]|] eqn:E;
      [discriminate H|].
    apply list_find_None in E. rewrite Forall_forall in E. exact (E a Ha Hn).
  - intros H.
    destruct (list_find (fun a => name a = n) (mAnimations s)) as [[i b]|] eqn:E;
      [|contradiction].
    apply list_find_Some in E as (Hb & Hn & _). exists b. split; [|exact Hn].
    apply list_elem_of_lookup. eauto.
Qed.


(** X5. [addNewAnimation] never reads the vector out of bounds, in any
    state, and its result tells whether it added anything: it returns the
    empty string exactly when some animation already has the generated
    name, and then the state is unchanged (the counter included, so the
    same name is generated again) and only the warning is logged. *)
Theorem addNewAnimation_empty_result_iff_refused canvasSize p s :
  exists n s' log,
    addNewAnimation canvasSize p s = Done n s' log /\
    (n = EmptyString <->
     exists a, a ∈ mAnimations s /\ name a = peekNextGeneratedName s) /\
    (n = EmptyString ->
     s' = s /\ log = [qWarning (AlreadyExists (peekNextGeneratedName s))]) /\
    (n <> EmptyString -> n = peekNextGeneratedName s).
Proof.
  destruct (findAnimationWithName (peekNextGeneratedName s) s) as [r|] eqn:F.
  - eexists _, _, _. split; [apply (addNewAnimation_refused canvasSize p s r F)|].
    split; [|split; [auto | intros H; contradiction]].
    split; [|reflexivity]. intros _. apply findAnimationWithName_taken. congruence.
  - destruct (addNewAnimation_result canvasSize p s F) as (s2 & mid & E2 & _).
    eexists _, _, _. split; [exact E2|].
    pose proof (peekNextGeneratedName_not_empty s) as Hne.
    split; [|split; [intros H; contradiction | reflexivity]].
    split; [intros H; contradiction|].
    intros H. apply findAnimationWithName_taken in H. contradiction.
Qed.

Lemma findAnimationWithName_appended n v a s :
  mAnimations s = v ++ [a] ->
  (forall b, b ∈ v -> name b <> n) ->
  name a = n ->
  findAnimationWithName n s = Some (length v).
Proof.
  intros Hv Hfree Hn. unfold findAnimationWithName. rewrite Hv.
  rewrite list_find_app_r.
  - cbn. rewrite decide_True by exact Hn. cbn. reflexivity.
  - apply list_find_None, Forall_forall. exact Hfree.
Qed.

(** X6. An animation that [addNewAnimation] has added can be looked up:
    when no animation has the generated name, the call returns that name,
    the vector grows by one, and afterwards [containsAnimation] of the
    name is true, [indexOfAnimation] of the name is the old size, and
    [animationAt] of the old size returns the new animation. *)
Theorem addNewAnimation_then_lookup canvasSize p s :
  (forall a, a ∈ mAnimations s -> name a <> peekNextGeneratedName s) ->
  exists s' log,
    let n := peekNextGeneratedName s in
    addNewAnimation canvasSize p s = Done n s' log /\
    animationCount s' = animationCount s + 1 /\
    containsAnimation n s' = true /\
    indexOfAnimation n s' = animationCount s /\
    animationAt (animationCount s) s' = Done (Some (newAnimation canvasSize p n)) s' [].
Proof.
  intros Hfree. pose proof (findAnimationWithName_absent _ s Hfree) as F.
  destruct (addNewAnimation_result canvasSize p s F) as (s' & mid & E & _ & Hv & _).
  exists s'. eexists. cbv zeta. split; [exact E|].
  assert (Hfind : findAnimationWithName (peekNextGeneratedName s) s' =
                  Some (length (mAnimations s))).
  { eapply findAnimationWithName_appended; [exact Hv | exact Hfree | reflexivity]. }
  destruct (indexOfAnimation_position _ _ _ Hfind) as [Hi Hc].
  split; [unfold animationCount; rewrite Hv, size_app; reflexivity|].
  split; [exact Hc|]. split; [exact Hi|].
  apply animationAt_element. apply at_Some. rewrite Hv, size_app.
  pose proof (size_nonneg (mAnimations s)) as Hs. unfold animationCount.
  split; [change (size [newAnimation canvasSize p (peekNextGeneratedName s)]) with 1; lia|].
  unfold size. rewrite Nat2Z.id. apply list_lookup_middle. reflexivity.
Qed.

Lemma addNewAnimation_then_lookup_witness :
  exists s' log,
    let n := peekNextGeneratedName one_animation in
    addNewAnimation canvas 2 one_animation = Done n s' log /\
    animationCount s' = animationCount one_animation + 1 /\
    containsAnimation n s' = true /\
    indexOfAnimation n s' = animationCount one_animation /\
    animationAt (animationCount one_animation) s' =
      Done (Some (newAnimation canvas 2 n)) s' [].
Proof.
  apply (addNewAnimation_then_lookup canvas 2 one_animation).
  intros a Ha. apply list_elem_of_singleton in Ha. subst a. vm_compute. discriminate.
Defined.

(** X7. The frames of a generated animation fit the canvas: for a canvas
    of width 0 or more the frame count is 1 or 4, never 0, the frames side
    by side are no wider than the canvas and fall short of it by less
    than the frame count; for a width of 1 or more a frame is at least one
    pixel wide. *)
Theorem newAnimation_frames_fit canvasSize p n :
  0 <= width canvasSize ->
  let a := newAnimation canvasSize p n in
  (frameCount a = 1 \/ frameCount a = 4) /\
  frameCount a * frameWidth a <= width canvasSize < frameCount a * frameWidth a + frameCount a /\
  (1 <= width canvasSize -> 1 <= frameWidth a) /\
  fps a = 4 /\ frameX a = 0 /\ frameY a = 0 /\ frameHeight a = height canvasSize.
Proof.
  intros Hw. unfold newAnimation. cbv zeta. cbn [frameCount frameWidth fps frameX frameY frameHeight].
  destruct (width canvasSize >=? 8) eqn:E.
  - assert (H8 : 8 <= width canvasSize) by lia.
    pose proof (Z.quot_rem' (width canvasSize) 4) as Hq.
    pose proof (Z.rem_bound_pos (width canvasSize) 4 Hw ltac:(lia)) as Hr.
    repeat split; lia.
  - rewrite Z.quot_1_r. repeat split; lia.
Qed.

Lemma newAnimation_frames_fit_witness :
  let a := newAnimation canvas 1 "Animation 1" in
  (frameCount a = 1 \/ frameCount a = 4) /\
  frameCount a * frameWidth a <= width canvas < frameCount a * frameWidth a + frameCount a /\
  (1 <= width canvas -> 1 <= frameWidth a) /\
  fps a = 4 /\ frameX a = 0 /\ frameY a = 0 /\ frameHeight a = height canvas.
Proof.
  apply (newAnimation_frames_fit canvas 1 "Animation 1"). cbn. lia.
Defined.

(** ** Positions in the vector *)

Lemma at_lookup {A} (v : list A) j : 0 <= j -> at_ v j = v !! Z.to_nat j.
Proof.
  intros Hj. unfold at_, size.
  destruct (j <? Z.of_nat (length v)) eqn:E.
  - replace (0 <=? j) with true by lia. reflexivity.
  - rewrite andb_false_r. symmetry. apply lookup_ge_None. lia.
Qed.

Lemma at_negative {A} (v : list A) j : j < 0 -> at_ v j = None.
Proof. intros Hj. apply at_None. left. exact Hj. Qed.

Lemma lookup_insert_here {A} n (a : A) v :
  (n <= length v)%nat -> (take n v ++ a :: drop n v) !! n = Some a.
Proof.
  intros Hn. rewrite lookup_app_r by (rewrite length_take; lia).
  rewrite length_take. replace (n - n `min` length v)%nat with 0%nat by lia.
  reflexivity.
Qed.

Lemma lookup_insert_before {A} n (a : A) v j :
  (j < n)%nat -> (n <= length v)%nat ->
  (take n v ++ a :: drop n v) !! j = v !! j.
Proof.
  intros Hj Hn. rewrite lookup_app_l by (rewrite length_take; lia).
  apply lookup_take_lt. exact Hj.
Qed.

Lemma lookup_insert_after {A} n (a : A) v j :
  (n <= j)%nat -> (n <= length v)%nat ->
  (take n v ++ a :: drop n v) !! S j = v !! j.
Proof.
  intros Hj Hn. rewrite lookup_app_r by (rewrite length_take; lia).
  rewrite length_take. replace (S j - n `min` length v)%nat with (S (j - n)) by lia.
  change ((a :: drop n v) !! S (j - n)%nat) with (drop n v !! (j - n)%nat).
  rewrite lookup_drop. f_equal. lia.
Qed.

Lemma at_insert_here {A} i (a : A) v :
  0 <= i <= size v -> at_ (insert_ i a v) i = Some a.
Proof.
  intros Hi. rewrite at_lookup by lia. unfold insert_.
  apply lookup_insert_here. unfold size in Hi. lia.
Qed.

Lemma at_insert_before {A} i (a : A) v j :
  0 <= i <= size v -> j < i -> at_ (insert_ i a v) j = at_ v j.
Proof.
  intros Hi Hj. destruct (Z_lt_le_dec j 0) as [Hneg|Hpos].
  - rewrite !at_negative by exact Hneg. reflexivity.
  - rewrite !at_lookup by exact Hpos. unfold insert_.
    apply lookup_insert_before; unfold size in Hi; lia.
Qed.

Lemma at_insert_after {A} i (a : A) v j :
  0 <= i <= size v -> i <= j -> at_ (insert_ i a v) (j + 1) = at_ v j.
Proof.
  intros Hi Hj. rewrite !at_lookup by lia. unfold insert_.
  replace (Z.to_nat (j + 1)) with (S (Z.to_nat j)) by lia.
  apply lookup_insert_after; unfold size in Hi; lia.
Qed.

Lemma erase_insert_ {A} i (a : A) v :
  0 <= i <= size v -> erase i (insert_ i a v) = v.
Proof.
  intros Hi. unfold erase, insert_. rewrite delete_take_drop.
  assert (Hn : (Z.to_nat i <= length v)%nat) by (unfold size in Hi; lia).
  rewrite take_app_le by (rewrite length_take; lia).
  rewrite take_take. replace (Z.to_nat i `min` Z.to_nat i)%nat with (Z.to_nat i) by lia.
  rewrite drop_app_ge by (rewrite length_take; lia).
  rewrite length_take. replace (S (Z.to_nat i) - Z.to_nat i `min` length v)%nat with 1%nat by lia.
  cbn. rewrite drop_0. apply take_drop.
Qed.

Lemma at_erase_before {A} i (v : list A) j :
  0 <= i -> j < i -> at_ (erase i v) j = at_ v j.
Proof.
  intros Hi Hj. destruct (Z_lt_le_dec j 0) as [Hneg|Hpos].
  - rewrite !at_negative by exact Hneg. reflexivity.
  - rewrite !at_lookup by exact Hpos. unfold erase.
    apply list_lookup_delete_lt. lia.
Qed.

Lemma at_erase_after {A} i (v : list A) j :
  0 <= i <= j -> at_ (erase i v) j = at_ v (j + 1).
Proof.
  intros Hi. rewrite !at_lookup by lia. unfold erase.
  rewrite list_lookup_delete_ge by lia. f_equal. lia.
Qed.

Lemma insert_Permutation {A} i (a : A) v : insert_ i a v ≡ₚ a :: v.
Proof.
  unfold insert_. rewrite <- Permutation_middle. rewrite take_drop. reflexivity.
Qed.

Lemma indexOf_absent a v :
  indexOf a v = -1 <-> forall b, b ∈ v -> address b <> address a.
Proof.
  unfold indexOf.
  destruct (list_find (fun b => address b = address a) v) as [[i b]|] eqn:E.
  - split; [lia|]. intros H. apply list_find_Some in E as (Hb & Hn & _).
    exfalso. apply (H b); [|exact Hn]. apply list_elem_of_lookup. eauto.
  - split; [|reflexivity]. intros _. apply list_find_None in E.
    rewrite Forall_forall in E. exact E.
Qed.

Lemma indexOf_present a v :
  indexOf a v <> -1 ->
  exists b, at_ v (indexOf a v) = Some b /\ address b = address a.
Proof.
  unfold indexOf.
  destruct (list_find (fun b => address b = address a) v) as [[i b]|] eqn:E;
    [|contradiction].
  intros _. apply list_find_Some in E as (Hb & Hn & _). exists b.
  split; [|exact Hn]. rewrite at_lookup by lia. rewrite Nat2Z.id. exact Hb.
Qed.

(** ** Insertion in every state *)

Lemma setCurrentAnimationIndex_keeps_vector w c index :
  keeps (fun x => mAnimations x = w /\ mAnimationsCreated x = c)
    (setCurrentAnimationIndex index).
Proof.
  intros s [] s' log HP E.
  destruct (setCurrentAnimationIndex_returns index s s' log E)
    as [(-> & _) | [(-> & _) | (a & _ & _ & _ & ->)]]; exact HP.
Qed.

(** Whenever [addAnimation] returns, either it refused and left the state
    as it was, or it inserted the animation at [index]. *)
Lemma addAnimation_returns a index s s' log :
  addAnimation a index s = Done tt s' log ->
  (s' = s /\
   (indexOf a (mAnimations s) <> -1 \/ index < 0 \/ animationCount s < index)) \/
  (indexOf a (mAnimations s) = -1 /\
   0 <= index <= animationCount s /\
   mAnimations s' = insert_ index a (mAnimations s) /\
   mAnimationsCreated s' = mAnimationsCreated s).
Proof.
  intros E.
  destruct (Z.eq_dec (indexOf a (mAnimations s)) (-1)) as [Hnew|Hold].
  - destruct (Z_lt_le_dec index 0) as [Hneg|Hpos].
    { rewrite addAnimation_invalid in E by (auto; left; exact Hneg).
      injection E as <- _. left. auto. }
    destruct (Z_lt_le_dec (animationCount s) index) as [Hbig|Hsmall].
    { rewrite addAnimation_invalid in E by (auto; right; exact Hbig).
      injection E as <- _. left. auto. }
    right. split; [exact Hnew|]. split; [lia|].
    rewrite addAnimation_accepted in E by (auto; lia).
    rewrite bind_emit, bind_modify in E.
    match type of E with
    | match ?m ?s1 with _ => _ end = _ =>
        destruct (m s1) as [[] s2 l2|] eqn:E1; [|discriminate E];
        injection E as <- _;
        assert (K : keeps (fun x => mAnimations x = insert_ index a (mAnimations s) /\
                                    mAnimationsCreated x = mAnimationsCreated s) m)
          by keeps_with ltac:(apply setCurrentAnimationIndex_keeps_vector);
        exact (K s1 tt s2 l2 (conj eq_refl eq_refl) E1)
    end.
  - rewrite addAnimation_present in E by exact Hold.
    injection E as <- _. left. auto.
Qed.

(** X8. [addAnimation] changes the state exactly when it accepts: whenever
    it returns, the state is unchanged if and only if the animation's
    address is already in the vector or [index] is outside [0, size]. *)
Theorem addAnimation_unchanged_iff_refused a index s s' log :
  addAnimation a index s = Done tt s' log ->
  (s' = s <->
   (exists b, b ∈ mAnimations s /\ address b = address a) \/
   index < 0 \/ animationCount s < index).
Proof.
  intros E.
  destruct (addAnimation_returns a index s s' log E)
    as [(-> & Href) | (Hnew & Hidx & Hv & _)].
  - split; [intros _|reflexivity].
    destruct Href as [Hold | Hbad]; [left | right; exact Hbad].
    destruct (indexOf_present a (mAnimations s) Hold) as (b & Hb & Hab).
    exists b. split; [|exact Hab].
    apply at_Some in Hb as [_ Hb]. apply list_elem_of_lookup. eauto.
  - split.
    + intros ->. apply (f_equal size) in Hv. rewrite size_insert_ in Hv. lia.
    + intros [(b & Hb & Hab) | Hbad]; [|unfold animationCount in *; lia].
      exfalso. apply (proj1 (indexOf_absent a (mAnimations s)) Hnew b Hb Hab).
Qed.

Lemma addAnimation_unchanged_iff_refused_witness :
  two_animations = two_animations <->
  (exists b, b ∈ mAnimations two_animations /\ address b = address (generated 2 2)) \/
  5 < 0 \/ animationCount two_animations < 5.
Proof.
  apply (addAnimation_unchanged_iff_refused (generated 2 2) 5 two_animations two_animations
           [qWarning (AlreadyExistsAt "Animation 2" 1)]).
  reflexivity.
Defined.

(** X9. [addAnimation] keeps the addresses in the vector distinct: if no
    two elements share an address before the call, none do after it,
    whatever the arguments. *)
Theorem addAnimation_keeps_addresses_distinct a index s s' log :
  NoDup (address <$> mAnimations s) ->
  addAnimation a index s = Done tt s' log ->
  NoDup (address <$> mAnimations s').
Proof.
  intros Hnd E.
  destruct (addAnimation_returns a index s s' log E)
    as [(-> & _) | (Hnew & _ & Hv & _)]; [exact Hnd|].
  rewrite Hv, insert_Permutation. rewrite fmap_cons. apply NoDup_cons. split; [|exact Hnd].
  intros Hin. apply list_elem_of_fmap in Hin as (b & Hab & Hb).
  apply (proj1 (indexOf_absent a (mAnimations s)) Hnew b Hb). symmetry. exact Hab.
Qed.

Lemma addAnimation_keeps_addresses_distinct_witness :
  NoDup (address <$> [generated 1 1; walk; generated 2 2]).
Proof.
  apply (addAnimation_keeps_addresses_distinct walk 1 two_animations
           {| mAnimations := [generated 1 1; walk; generated 2 2];
              mCurrentAnimationIndex := 0;
              mCurrentAnimationPlayback := bound_to (Some (generated 1 1));
              mAnimationsCreated := 2 |}
           [preAnimationAdded 1; postAnimationAdded 1; animationCountChanged]).
  - apply (bool_decide_unpack (NoDup (address <$> mAnimations two_animations))).
    vm_compute. exact I.
  - reflexivity.
Defined.

(** X10. Where an accepted [addAnimation] puts things: the animation is
    at position [index], the elements before [index] keep their
    positions, every element from [index] on moves up by one, and the
    size grows by one. *)
Theorem addAnimation_positions a index s s' log :
  addAnimation a index s = Done tt s' log ->
  (forall b, b ∈ mAnimations s -> address b <> address a) ->
  0 <= index <= animationCount s ->
  animationCount s' = animationCount s + 1 /\
  at_ (mAnimations s') index = Some a /\
  (forall j, j < index -> at_ (mAnimations s') j = at_ (mAnimations s) j) /\
  (forall j, index <= j -> at_ (mAnimations s') (j + 1) = at_ (mAnimations s) j).
Proof.
  intros E Hnew Hidx.
  destruct (addAnimation_returns a index s s' log E)
    as [(-> & Href) | (_ & _ & Hv & _)].
  - exfalso. destruct Href as [Hold | Hbad]; [|lia].
    apply Hold. apply indexOf_absent. exact Hnew.
  - unfold animationCount in *. rewrite Hv.
    split; [apply size_insert_|]. split; [apply at_insert_here; exact Hidx|].
    split; intros j Hj; [apply at_insert_before | apply at_insert_after]; auto.
Qed.

Lemma addAnimation_positions_witness :
  animationCount (set_mAnimations [generated 1 1; walk; generated 2 2] two_animations) =
    animationCount two_animations + 1 /\
  at_ [generated 1 1; walk; generated 2 2] 1 = Some walk /\
  (forall j, j < 1 ->
     at_ [generated 1 1; walk; generated 2 2] j = at_ (mAnimations two_animations) j) /\
  (forall j, 1 <= j ->
     at_ [generated 1 1; walk; generated 2 2] (j + 1) = at_ (mAnimations two_animations) j).
Proof.
  apply (addAnimation_positions walk 1 two_animations
           (set_mAnimations [generated 1 1; walk; generated 2 2] two_animations)
           [preAnimationAdded 1; postAnimationAdded 1; animationCountChanged]).
  - reflexivity.
  - intros b Hb. apply elem_of_cons in Hb as [->|Hb]; [vm_compute; discriminate|].
    apply list_elem_of_singleton in Hb. subst b. vm_compute. discriminate.
  - change (0 <= 1 <= 2). lia.
Defined.

(** X11. Inserting and then detaching at the same position gives the
    animation back and restores the vector: after an accepted
    [addAnimation(a, index)], [takeAnimation(index)] returns [a], emits
    its three notifications and leaves the vector as it was before the
    insertion; the current index and the playback stay as the insertion
    left them. *)
Theorem addAnimation_then_takeAnimation_int a index s s1 log :
  addAnimation a index s = Done tt s1 log ->
  (forall b, b ∈ mAnimations s -> address b <> address a) ->
  0 <= index <= animationCount s ->
  takeAnimation_int index s1 =
    Done (Some a) (set_mAnimations (mAnimations s) s1)
      [preAnimationRemoved index; postAnimationRemoved index; animationCountChanged].
Proof.
  intros E Hnew Hidx.
  destruct (addAnimation_returns a index s s1 log E)
    as [(-> & Href) | (_ & _ & Hv & _)].
  - exfalso. destruct Href as [Hold | Hbad]; [|lia].
    apply Hold. apply indexOf_absent. exact Hnew.
  - rewrite (takeAnimation_int_element index s1 a).
    + rewrite Hv, erase_insert_ by exact Hidx. reflexivity.
    + rewrite Hv. apply at_insert_here. exact Hidx.
Qed.

Lemma addAnimation_then_takeAnimation_int_witness :
  takeAnimation_int 0
    {| mAnimations := [walk; generated 1 1; generated 2 2];
       mCurrentAnimationIndex := 1;
       mCurrentAnimationPlayback := bound_to (Some (generated 1 1));
       mAnimationsCreated := 2 |} =
  Done (Some walk)
    (set_mAnimations (mAnimations two_animations)
       {| mAnimations := [walk; generated 1 1; generated 2 2];
          mCurrentAnimationIndex := 1;
          mCurrentAnimationPlayback := bound_to (Some (generated 1 1));
          mAnimationsCreated := 2 |})
    [preAnimationRemoved 0; postAnimationRemoved 0; animationCountChanged].
Proof.
  apply (addAnimation_then_takeAnimation_int walk 0 two_animations _
           [preAnimationAdded 0; currentAnimationIndexChanged;
            postAnimationAdded 0; animationCountChanged]).
  - reflexivity.
  - intros b Hb. apply elem_of_cons in Hb as [->|Hb]; [vm_compute; discriminate|].
    apply list_elem_of_singleton in Hb. subst b. vm_compute. discriminate.
  - change (0 <= 0 <= 2). lia.
Defined.

(** ** The selection across insertions and removals *)

Lemma addAnimation_selected a index s b :
  indexOf a (mAnimations s) = -1 ->
  0 <= index <= animationCount s ->
  at_ (mAnimations s) (mCurrentAnimationIndex s) = Some b ->
  let s1 := set_mAnimations (insert_ index a (mAnimations s)) s in
  addAnimation a index s =
    if index <=? mCurrentAnimationIndex s then
      Done tt
        (set_mCurrentAnimationPlayback
           (Playback.setAnimation (Some b) (mCurrentAnimationPlayback s))
           (set_mCurrentAnimationIndex (mCurrentAnimationIndex s + 1) s1))
        [preAnimationAdded index; currentAnimationIndexChanged;
         postAnimationAdded index; animationCountChanged]
    else
      Done tt s1
        [preAnimationAdded index; postAnimationAdded index; animationCountChanged].
Proof.
  intros Hnew Hidx Hb s1. pose proof (proj1 (at_Some _ _ _) Hb) as [Hcur _].
  fold (animationCount s) in Hcur.
  rewrite addAnimation_accepted by assumption.
  rewrite bind_emit, bind_modify, bind_gets. fold s1.
  assert (Hcount : animationCount s1 = animationCount s + 1)
    by (unfold animationCount, s1; cbn; apply size_insert_).
  destruct (animationCount s1 =? 1) eqn:E1; [lia|].
  rewrite bind_assoc, bind_gets.
  change (mCurrentAnimationIndex s1) with (mCurrentAnimationIndex s).
  destruct (index <=? mCurrentAnimationIndex s) eqn:E2; cbv beta iota.
  - assert (Hb1 : at_ (mAnimations s1) (mCurrentAnimationIndex s + 1) = Some b).
    { unfold s1. cbn. rewrite at_insert_after by (unfold animationCount in *; lia).
      exact Hb. }
    rewrite (bind_Done _ _ _ _ _ _
               (setCurrentAnimationIndex_changes _ s1 b Hb1 ltac:(cbn; lia))).
    reflexivity.
  - rewrite bind_ret. reflexivity.
Qed.

(** X12. An insertion keeps the selection on the same animation: when
    the current index points at an element [b] and [addAnimation]
    accepts, it returns, the current index is moved by one exactly when
    the insertion was at or before it, [currentAnimation()] is still [b],
    and a playback that was bound to [b] is still bound to [b]. *)
Theorem addAnimation_keeps_selected_animation a index s b :
  (forall c, c ∈ mAnimations s -> address c <> address a) ->
  0 <= index <= animationCount s ->
  at_ (mAnimations s) (mCurrentAnimationIndex s) = Some b ->
  exists s' log,
    addAnimation a index s = Done tt s' log /\
    mCurrentAnimationIndex s' =
      (if index <=? mCurrentAnimationIndex s
       then mCurrentAnimationIndex s + 1 else mCurrentAnimationIndex s) /\
    currentAnimation s' = Done (Some b) s' [] /\
    (animation (mCurrentAnimationPlayback s) = Some b ->
     animation (mCurrentAnimationPlayback s') = Some b).
Proof.
  intros Hnew Hidx Hb. apply indexOf_absent in Hnew.
  pose proof (proj1 (at_Some _ _ _) Hb) as [Hcur _].
  rewrite (addAnimation_selected a index s b Hnew Hidx Hb). cbv zeta.
  destruct (index <=? mCurrentAnimationIndex s) eqn:E.
  - eexists _, _. split; [reflexivity|]. split; [reflexivity|]. split; [|reflexivity].
    apply currentAnimation_selected. cbn.
    rewrite at_insert_after by (unfold animationCount in *; lia). exact Hb.
  - eexists _, _. split; [reflexivity|]. split; [reflexivity|]. split; [|auto].
    apply currentAnimation_selected. cbn.
    rewrite at_insert_before by (unfold animationCount in *; lia). exact Hb.
Qed.

Lemma addAnimation_keeps_selected_animation_witness :
  exists s' log,
    addAnimation walk 0 two_animations = Done tt s' log /\
    mCurrentAnimationIndex s' =
      (if 0 <=? mCurrentAnimationIndex two_animations
       then mCurrentAnimationIndex two_animations + 1
       else mCurrentAnimationIndex two_animations) /\
    currentAnimation s' = Done (Some (generated 1 1)) s' [] /\
    (animation (mCurrentAnimationPlayback two_animations) = Some (generated 1 1) ->
     animation (mCurrentAnimationPlayback s') = Some (generated 1 1)).
Proof.
  apply (addAnimation_keeps_selected_animation walk 0 two_animations (generated 1 1)).
  - intros b Hb. apply elem_of_cons in Hb as [->|Hb]; [vm_compute; discriminate|].
    apply list_elem_of_singleton in Hb. subst b. vm_compute. discriminate.
  - change (0 <= 0 <= 2). lia.
  - reflexivity.
Defined.

Lemma findAnimationWithName_in_range n s r :
  findAnimationWithName n s = Some r -> 0 <= Z.of_nat r < animationCount s.
Proof.
  intros F. destruct (findAnimationWithName_Some n s r F) as (a & Ha & _).
  apply lookup_lt_Some in Ha. unfold animationCount, size. lia.
Qed.

(** X13. Removing by name an animation other than the current one keeps
    the selection on the same animation: in a state whose current index
    is in its range, if the name is found at a position different from
    the current index, [takeAnimation(name)] returns and
    [currentAnimation()] returns afterwards what it returned before. *)
Theorem takeAnimation_QString_keeps_selected_animation n s r :
  index_in_range s ->
  findAnimationWithName n s = Some r ->
  Z.of_nat r <> mCurrentAnimationIndex s ->
  exists s' log,
    takeAnimation_QString n s = Done tt s' log /\
    exists c, currentAnimation s = Done c s [] /\ currentAnimation s' = Done c s' [].
Proof.
  intros Hr F Hne.
  destruct (takeAnimation_QString_result n s r F Hr) as (s' & mid & E & _ & Hv & _ & Hc).
  pose proof (findAnimationWithName_in_range n s r F) as Hrr.
  destruct Hr as [Hlo Hhi].
  exists s'. eexists. split; [exact E|].
  destruct (Z.eq_dec (mCurrentAnimationIndex s) (-1)) as [Hnone|Hsome].
  - exists None. split; [apply currentAnimation_none; exact Hnone|].
    apply currentAnimation_none. rewrite Hc, Hnone.
    rewrite andb_false_r. reflexivity.
  - destruct (at_in_range (mAnimations s) (mCurrentAnimationIndex s)) as [b Hb];
      [fold (animationCount s); lia|].
    exists (Some b). split; [apply currentAnimation_selected; exact Hb|].
    apply currentAnimation_selected. rewrite Hv, Hc.
    destruct (Z.of_nat r <=? mCurrentAnimationIndex s) eqn:E1.
    + apply Z.leb_le in E1.
      replace (1 <=? mCurrentAnimationIndex s) with true by lia. cbn [andb].
      rewrite at_erase_after by lia.
      replace (mCurrentAnimationIndex s - 1 + 1) with (mCurrentAnimationIndex s) by lia.
      exact Hb.
    + apply Z.leb_gt in E1. cbn [andb]. rewrite at_erase_before by lia. exact Hb.
Qed.

Lemma takeAnimation_QString_keeps_selected_animation_witness :
  exists s' log,
    takeAnimation_QString "Animation 2" two_animations = Done tt s' log /\
    exists c, currentAnimation two_animations = Done c two_animations [] /\
              currentAnimation s' = Done c s' [].
Proof.
  apply (takeAnimation_QString_keeps_selected_animation "Animation 2" two_animations 1).
  - unfold index_in_range. change (-1 <= 0 <= 2 - 1). lia.
  - reflexivity.
  - cbn. lia.
Defined.

Lemma takeAnimation_QString_moves n s r c :
  index_in_range s ->
  findAnimationWithName n s = Some r ->
  Z.of_nat r <= mCurrentAnimationIndex s ->
  1 <= mCurrentAnimationIndex s ->
  at_ (mAnimations s) (mCurrentAnimationIndex s - 1) = Some c ->
  takeAnimation_QString n s =
    Done tt
      (set_mAnimations (erase (Z.of_nat r) (mAnimations s))
         (set_mCurrentAnimationPlayback
            (Playback.setAnimation (Some c) (mCurrentAnimationPlayback s))
            (set_mCurrentAnimationIndex (mCurrentAnimationIndex s - 1) s)))
      [preAnimationRemoved (Z.of_nat r); currentAnimationIndexChanged;
       postAnimationRemoved (Z.of_nat r); animationCountChanged].
Proof.
  intros [Hlo Hhi] F Hle Hcur Hc. unfold takeAnimation_QString.
  rewrite bind_gets, F. cbv beta iota. rewrite bind_emit, bind_gets.
  destruct (animationCount s =? 1) eqn:E1; [lia|].
  rewrite bind_ret, bind_gets.
  destruct (Z.of_nat r <=? mCurrentAnimationIndex s) eqn:E2; [|lia].
  rewrite (bind_Done _ _ _ _ _ _
             (setCurrentAnimationIndex_changes _ s c Hc ltac:(lia))).
  rewrite bind_modify, bind_emit. reflexivity.
Qed.

(** X14. After [takeAnimation(name)] removes an animation strictly before
    the current one, the playback and [currentAnimation()] disagree: the
    setter runs before the element is erased, so the playback is bound to
    the element that sat just before the current one, while the current
    index, decremented, points after the erasure at the animation that
    was current all along. *)
Theorem takeAnimation_QString_binds_predecessor n s r b c :
  index_in_range s ->
  findAnimationWithName n s = Some r ->
  Z.of_nat r < mCurrentAnimationIndex s ->
  at_ (mAnimations s) (mCurrentAnimationIndex s) = Some b ->
  at_ (mAnimations s) (mCurrentAnimationIndex s - 1) = Some c ->
  exists s',
    takeAnimation_QString n s =
      Done tt s'
        [preAnimationRemoved (Z.of_nat r); currentAnimationIndexChanged;
         postAnimationRemoved (Z.of_nat r); animationCountChanged] /\
    mCurrentAnimationIndex s' = mCurrentAnimationIndex s - 1 /\
    currentAnimation s' = Done (Some b) s' [] /\
    animation (mCurrentAnimationPlayback s') = Some c.
Proof.
  intros Hr F Hlt Hb Hc.
  eexists. split; [apply (takeAnimation_QString_moves n s r c); auto; lia|].
  split; [reflexivity|]. split; [|reflexivity].
  apply currentAnimation_selected. cbn. rewrite at_erase_after by lia.
  replace (mCurrentAnimationIndex s - 1 + 1) with (mCurrentAnimationIndex s) by lia.
  exact Hb.
Qed.

Lemma takeAnimation_QString_binds_predecessor_witness :
  exists s',
    takeAnimation_QString "Animation 1"
      (set_mCurrentAnimationPlayback (bound_to (Some (generated 3 3)))
         (set_mCurrentAnimationIndex 2 three_animations)) =
      Done tt s'
        [preAnimationRemoved (Z.of_nat 0); currentAnimationIndexChanged;
         postAnimationRemoved (Z.of_nat 0); animationCountChanged] /\
    mCurrentAnimationIndex s' = 2 - 1 /\
    currentAnimation s' = Done (Some (generated 3 3)) s' [] /\
    animation (mCurrentAnimationPlayback s') = Some (generated 2 2).
Proof.
  apply (takeAnimation_QString_binds_predecessor "Animation 1"
           (set_mCurrentAnimationPlayback (bound_to (Some (generated 3 3)))
              (set_mCurrentAnimationIndex 2 three_animations))
           0 (generated 3 3) (generated 2 2)).
  - unfold index_in_range. change (-1 <= 2 <= 3 - 1). lia.
  - reflexivity.
  - cbn. lia.
  - reflexivity.
  - reflexivity.
Defined.

Lemma findAnimationWithName_first n s r :
  findAnimationWithName n s = Some r ->
  (name <$> mAnimations s) !! r = Some n.
Proof.
  intros F. destruct (findAnimationWithName_Some n s r F) as (a & Ha & Hn).
  rewrite list_lookup_fmap, Ha. cbn. rewrite Hn. reflexivity.
Qed.

(** X15. With distinct names, a removed name is gone: in a state whose
    current index is in its range and whose animations all have different
    names, removing a name that some animation has returns, takes the
    size down by one, and afterwards [containsAnimation] of that name is
    false and [indexOfAnimation] of it is -1. *)
Theorem takeAnimation_QString_then_lookup n s :
  index_in_range s ->
  NoDup (name <$> mAnimations s) ->
  (exists a, a ∈ mAnimations s /\ name a = n) ->
  exists s' log,
    takeAnimation_QString n s = Done tt s' log /\
    animationCount s' = animationCount s - 1 /\
    containsAnimation n s' = false /\
    indexOfAnimation n s' = -1.
Proof.
  intros Hr Hnd Hin. apply findAnimationWithName_taken in Hin.
  destruct (findAnimationWithName n s) as [r|] eqn:F; [|contradiction].
  destruct (takeAnimation_QString_result n s r F Hr) as (s' & mid & E & _ & Hv & _).
  pose proof (findAnimationWithName_in_range n s r F) as Hrr.
  exists s'. eexists. split; [exact E|].
  split; [unfold animationCount in *; rewrite Hv; apply size_erase; lia|].
  assert (Hgone : findAnimationWithName n s' = None).
  { apply findAnimationWithName_absent. rewrite Hv. unfold erase. rewrite Nat2Z.id.
    intros b Hb Hn. apply list_elem_of_lookup in Hb as [j Hj].
    rewrite list_lookup_delete in Hj.
    pose proof (findAnimationWithName_first n s r F) as Hfirst.
    assert (Hother : (name <$> mAnimations s) !!
                       (if decide (j < r)%nat then j else S j) = Some n)
      by (rewrite list_lookup_fmap, Hj; cbn; rewrite Hn; reflexivity).
    pose proof (NoDup_lookup _ _ _ _ Hnd Hfirst Hother) as Heq.
    destruct (decide (j < r)%nat); lia. }
  destruct (indexOfAnimation_absent n s' Hgone) as [Hi Hc]. auto.
Qed.

Lemma takeAnimation_QString_then_lookup_witness :
  exists s' log,
    takeAnimation_QString "Animation 2" two_animations = Done tt s' log /\
    animationCount s' = animationCount two_animations - 1 /\
    containsAnimation "Animation 2" s' = false /\
    indexOfAnimation "Animation 2" s' = -1.
Proof.
  apply (takeAnimation_QString_then_lookup "Animation 2" two_animations).
  - unfold index_in_range. change (-1 <= 0 <= 2 - 1). lia.
  - apply (bool_decide_unpack (NoDup (name <$> mAnimations two_animations))).
    vm_compute. exact I.
  - exists (generated 2 2). split; [|reflexivity].
    apply elem_of_cons. right. apply list_elem_of_singleton. reflexivity.
Defined.

(** ** Detaching by index in every state *)

Lemma takeAnimation_int_cases index s :
  takeAnimation_int index s =
    if (index <? 0) || (index >? animationCount s) then
      Done None s [qWarning (InvalidIndex index)]
    else
      match at_ (mAnimations s) index with
      | Some a =>
          Done (Some a) (set_mAnimations (erase index (mAnimations s)) s)
            [preAnimationRemoved index; postAnimationRemoved index;
             animationCountChanged]
      | None => OutOfBounds
      end.
Proof.
  destruct ((index <? 0) || (index >? animationCount s)) eqn:E.
  - apply takeAnimation_int_refused. lia.
  - destruct (at_ (mAnimations s) index) as [a|] eqn:Ha.
    + apply takeAnimation_int_element. exact Ha.
    + apply at_None in Ha. fold (animationCount s) in Ha.
      assert (E2 : index = animationCount s) by lia. subst index.
      apply takeAnimation_int_size.
Qed.

(** X16. [takeAnimation(int)] never adjusts the selection: whenever it
    returns, the current index, the playback and the counter are what
    they were; it returns none exactly when it refused the index, and
    then the state is unchanged; otherwise it returns the element that
    was at [index] and erases it, so that a current index at or after
    [index] now designates the element that followed the current one. *)
Theorem takeAnimation_int_keeps_selection_members index s r s' log :
  takeAnimation_int index s = Done r s' log ->
  mCurrentAnimationIndex s' = mCurrentAnimationIndex s /\
  mCurrentAnimationPlayback s' = mCurrentAnimationPlayback s /\
  mAnimationsCreated s' = mAnimationsCreated s /\
  (r = None <-> index < 0 \/ animationCount s < index) /\
  (r = None -> s' = s) /\
  (forall a, r = Some a ->
     at_ (mAnimations s) index = Some a /\
     mAnimations s' = erase index (mAnimations s) /\
     (index <= mCurrentAnimationIndex s ->
      at_ (mAnimations s') (mCurrentAnimationIndex s') =
        at_ (mAnimations s) (mCurrentAnimationIndex s + 1))).
Proof.
  rewrite takeAnimation_int_cases.
  destruct ((index <? 0) || (index >? animationCount s)) eqn:E.
  - intros H. injection H as <- <- <-.
    split; [reflexivity|]. split; [reflexivity|]. split; [reflexivity|].
    split; [split; [intros _; lia | reflexivity]|].
    split; [reflexivity|]. intros a Ha. discriminate Ha.
  - destruct (at_ (mAnimations s) index) as [a|] eqn:Ha; [|discriminate].
    intros H. injection H as <- <- <-.
    pose proof (proj1 (at_Some _ _ _) Ha) as [Hi _].
    split; [reflexivity|]. split; [reflexivity|]. split; [reflexivity|].
    split; [split; [discriminate | unfold animationCount; lia]|].
    split; [discriminate|].
    intros b Hb. injection Hb as <-. split; [reflexivity|]. split; [reflexivity|].
    intros Hle. cbn. apply at_erase_after. lia.
Qed.

Lemma takeAnimation_int_keeps_selection_members_witness :
  mCurrentAnimationIndex first_detached = mCurrentAnimationIndex two_animations /\
  mCurrentAnimationPlayback first_detached = mCurrentAnimationPlayback two_animations /\
  mAnimationsCreated first_detached = mAnimationsCreated two_animations /\
  (Some (generated 1 1) = None <-> 0 < 0 \/ animationCount two_animations < 0) /\
  (Some (generated 1 1) = None -> first_detached = two_animations) /\
  (forall a, Some (generated 1 1) = Some a ->
     at_ (mAnimations two_animations) 0 = Some a /\
     mAnimations first_detached = erase 0 (mAnimations two_animations) /\
     (0 <= mCurrentAnimationIndex two_animations ->
      at_ (mAnimations first_detached) (mCurrentAnimationIndex first_detached) =
        at_ (mAnimations two_animations) (mCurrentAnimationIndex two_animations + 1))).
Proof.
  apply (takeAnimation_int_keeps_selection_members 0 two_animations
           (Some (generated 1 1)) first_detached
           [preAnimationRemoved 0; postAnimationRemoved 0; animationCountChanged]).
  reflexivity.
Defined.

(** ** Reading a project *)

(** X17. Reading a project in the current format appends its animations
    without a notification, selects nothing and leaves the counter of
    generated names where it was; so, if one of the animations read has
    the name the counter generates next, every [addNewAnimation] after
    the read is refused and changes nothing. *)
Theorem read_project_then_addNewAnimation animations scale_ loop_ playing_ canvasSize p s :
  exists s1,
    read (Project animations scale_ loop_ playing_) s = Done tt s1 [] /\
    mAnimations s1 = mAnimations s ++ animations /\
    mCurrentAnimationIndex s1 = mCurrentAnimationIndex s /\
    mAnimationsCreated s1 = mAnimationsCreated s /\
    ((exists a, a ∈ animations /\ name a = peekNextGeneratedName s) ->
     addNewAnimation canvasSize p s1 =
       Done EmptyString s1 [qWarning (AlreadyExists (peekNextGeneratedName s))]).
Proof.
  eexists. split; [reflexivity|]. cbn. repeat split.
  intros (a & Ha & Hn).
  set (s1 := set_mCurrentAnimationPlayback _ _).
  assert (Htaken : findAnimationWithName (peekNextGeneratedName s1) s1 <> None).
  { apply findAnimationWithName_taken. exists a. split; [|exact Hn].
    cbn. apply elem_of_app. right. exact Ha. }
  destruct (findAnimationWithName (peekNextGeneratedName s1) s1) as [r|] eqn:F;
    [|contradiction].
  apply (addNewAnimation_refused canvasSize p s1 r F).
Qed.

(** X18. Reading a project of the old single-animation format into a
    state whose current index is in its range puts the animation, under
    the next generated name, at the front of the vector, advances the
    counter, moves the current index as an insertion at 0 does, sets the
    playback's scale and loop from the file and stops the playback.  The
    generated name is not checked against the names present. *)
Theorem read_legacy_inserts_at_front p fps_ frameCount_ frameX_ frameY_ frameWidth_ frameHeight_ scale_ loop_ s :
  (forall b, b ∈ mAnimations s -> address b <> p) ->
  index_in_range s ->
  exists s' log,
    read (LegacyProject p fps_ frameCount_ frameX_ frameY_ frameWidth_ frameHeight_
            scale_ loop_) s = Done tt s' log /\
    mAnimations s' =
      {| address := p; name := peekNextGeneratedName s; fps := fps_;
         frameCount := frameCount_; frameX := frameX_; frameY := frameY_;
         frameWidth := frameWidth_; frameHeight := frameHeight_ |} :: mAnimations s /\
    mAnimationsCreated s' = wrap_int (mAnimationsCreated s + 1) /\
    insertion_rule 0 s s' /\
    scale (mCurrentAnimationPlayback s') = scale_ /\
    loop (mCurrentAnimationPlayback s') = loop_ /\
    playing (mCurrentAnimationPlayback s') = false.
Proof.
  intros Hnew [Hlo Hhi]. unfold read.
  rewrite (bind_quiet takeNextGeneratedName _ s (peekNextGeneratedName s)
             (set_mAnimationsCreated (wrap_int (mAnimationsCreated s + 1)) s) eq_refl).
  cbv beta zeta.
  set (a := {| address := p; name := peekNextGeneratedName s |}).
  set (s0 := set_mAnimationsCreated _ s).
  pose proof (size_nonneg (mAnimations s)) as Hs.
  destruct (addAnimation_result a 0 s0) as (s1 & mid & E & _ & Hv & Hc & Hrule).
  - apply indexOf_absent. exact Hnew.
  - unfold animationCount, s0. cbn. lia.
  - exact Hhi.
  - rewrite (bind_Done _ _ _ _ _ _ E), !bind_playback.
    eexists _, _. split; [reflexivity|]. cbn.
    split; [exact Hv|]. split; [exact Hc|]. split; [exact Hrule|]. auto.
Qed.

Lemma read_legacy_inserts_at_front_witness :
  exists s' log,
    read (LegacyProject 7 12 6 0 0 16 16 2%float false) one_animation = Done tt s' log /\
    mAnimations s' =
      {| address := 7; name := peekNextGeneratedName one_animation; fps := 12;
         frameCount := 6; frameX := 0; frameY := 0;
         frameWidth := 16; frameHeight := 16 |} :: mAnimations one_animation /\
    mAnimationsCreated s' = mAnimationsCreated one_animation + 1 /\
    insertion_rule 0 one_animation s' /\
    scale (mCurrentAnimationPlayback s') = 2%float /\
    loop (mCurrentAnimationPlayback s') = false /\
    playing (mCurrentAnimationPlayback s') = false.
Proof.
  apply (read_legacy_inserts_at_front 7 12 6 0 0 16 16 2%float false one_animation).
  - intros b Hb. apply list_elem_of_singleton in Hb. subst b. vm_compute. discriminate.
  - unfold index_in_range. change (-1 <= 0 <= 1 - 1). lia.
Defined.

(** ** Lookups *)

(** X19. The lookups agree on a name that is present: [containsAnimation]
    is true, [indexOfAnimation] is a position inside the vector, and
    [animationAt] of that position and [animationAtNameOrWarn] of the
    name return, without a warning and without changing the state, the
    same animation, which has that name and is the first that has it. *)
Theorem lookups_agree_on_present_name n s :
  (exists a, a ∈ mAnimations s /\ name a = n) ->
  exists a,
    name a = n /\
    containsAnimation n s = true /\
    0 <= indexOfAnimation n s < animationCount s /\
    at_ (mAnimations s) (indexOfAnimation n s) = Some a /\
    (forall j b, 0 <= j < indexOfAnimation n s ->
       at_ (mAnimations s) j = Some b -> name b <> n) /\
    animationAt (indexOfAnimation n s) s = Done (Some a) s [] /\
    animationAtNameOrWarn n s = Done a s [].
Proof.
  intros Hin. apply findAnimationWithName_taken in Hin.
  destruct (findAnimationWithName n s) as [r|] eqn:F; [|contradiction].
  destruct (indexOfAnimation_position n s r F) as [Hi Hc].
  pose proof (findAnimationWithName_in_range n s r F) as Hr.
  unfold findAnimationWithName in F.
  destruct (list_find (fun a => name a = n) (mAnimations s)) as [[i a]|] eqn:L;
    [|discriminate F].
  cbn in F. injection F as ->. apply list_find_Some in L as (Ha & Hn & Hfirst).
  assert (Hat : at_ (mAnimations s) (Z.of_nat r) = Some a).
  { rewrite at_lookup by lia. rewrite Nat2Z.id. exact Ha. }
  exists a. rewrite Hi. split; [exact Hn|]. split; [exact Hc|]. split; [exact Hr|].
  split; [exact Hat|]. split.
  - intros j b Hj Hb. rewrite at_lookup in Hb by lia.
    apply (Hfirst (Z.to_nat j) b Hb). lia.
  - split; [apply animationAt_element; exact Hat|].
    unfold animationAtNameOrWarn, findAnimationWithName.
    rewrite bind_gets.
    replace (list_find (fun a0 => name a0 = n) (mAnimations s)) with (Some (r, a)).
    + cbn [fmap option_fmap option_map fst]. rewrite bind_gets, Ha. reflexivity.
    + symmetry. apply list_find_Some. auto.
Qed.

Lemma lookups_agree_on_present_name_witness :
  exists a,
    name a = "Animation 2" /\
    containsAnimation "Animation 2" two_animations = true /\
    0 <= indexOfAnimation "Animation 2" two_animations < animationCount two_animations /\
    at_ (mAnimations two_animations) (indexOfAnimation "Animation 2" two_animations) = Some a /\
    (forall j b, 0 <= j < indexOfAnimation "Animation 2" two_animations ->
       at_ (mAnimations two_animations) j = Some b -> name b <> "Animation 2") /\
    animationAt (indexOfAnimation "Animation 2" two_animations) two_animations =
      Done (Some a) two_animations [] /\
    animationAtNameOrWarn "Animation 2" two_animations = Done a two_animations [].
Proof.
  apply (lookups_agree_on_present_name "Animation 2" two_animations).
  exists (generated 2 2). split; [|reflexivity].
  apply elem_of_cons. right. apply list_elem_of_singleton. reflexivity.
Defined.

(** X20. The lookups on a name that is absent: [containsAnimation] is
    false and [indexOfAnimation] is -1, which [animationAt] refuses with
    a warning, returning none; [animationAtNameOrWarn] does not return an
    animation: it dereferences the [end()] iterator. *)
Theorem lookups_on_absent_name n s :
  (forall a, a ∈ mAnimations s -> name a <> n) ->
  containsAnimation n s = false /\
  indexOfAnimation n s = -1 /\
  animationAt (indexOfAnimation n s) s = Done None s [qWarning (InvalidIndex (-1))] /\
  animationAtNameOrWarn n s = OutOfBounds.
Proof.
  intros H. pose proof (findAnimationWithName_absent n s H) as F.
  destruct (indexOfAnimation_absent n s F) as [Hi Hc].
  split; [exact Hc|]. split; [exact Hi|]. split.
  - rewrite Hi. apply animationAt_refused. left. lia.
  - apply animationAtNameOrWarn_absent. exact F.
Qed.

Lemma lookups_on_absent_name_witness :
  containsAnimation "Walk" one_animation = false /\
  indexOfAnimation "Walk" one_animation = -1 /\
  animationAt (indexOfAnimation "Walk" one_animation) one_animation =
    Done None one_animation [qWarning (InvalidIndex (-1))] /\
  animationAtNameOrWarn "Walk" one_animation = OutOfBounds.
Proof.
  apply (lookups_on_absent_name "Walk" one_animation).
  intros b Hb. apply list_elem_of_singleton in Hb. subst b. vm_compute. discriminate.
Defined.

(** ** After a reset *)

(** X21. The first [addNewAnimation] after [reset()] is accepted, is named
    "Animation 1" and becomes the only element, with current index 0.  It
    becomes current through the setter only if the current index that
    [reset()] left behind was not already 0: if it was 0, no
    [currentAnimationIndexChanged] is emitted and the playback is left as
    [reset()] left it, not bound to the new animation. *)
Theorem reset_then_addNewAnimation canvasSize p s :
  exists s1 s2 log,
    reset s = Done tt s1 [] /\
    addNewAnimation canvasSize p s1 = Done "Animation 1" s2 log /\
    mAnimations s2 = [newAnimation canvasSize p "Animation 1"] /\
    mAnimationsCreated s2 = 1 /\
    mCurrentAnimationIndex s2 = 0 /\
    (mCurrentAnimationIndex s = 0 ->
     log = [preAnimationAdded (-1); postAnimationAdded (-1)] /\
     mCurrentAnimationPlayback s2 = mCurrentAnimationPlayback s1) /\
    (mCurrentAnimationIndex s <> 0 ->
     log = [preAnimationAdded (-1); currentAnimationIndexChanged; postAnimationAdded (-1)] /\
     animation (mCurrentAnimationPlayback s2) =
       Some (newAnimation canvasSize p "Animation 1")).
Proof.
  set (s1 := {| mAnimations := [];
                mCurrentAnimationIndex := mCurrentAnimationIndex s;
                mCurrentAnimationPlayback := Playback.initial;
                mAnimationsCreated := 0 |}).
  exists s1. unfold addNewAnimation. rewrite !bind_gets.
  change (findAnimationWithName (peekNextGeneratedName s1) s1) with (@None nat).
  cbv beta iota. rewrite bind_gets, bind_emit, !bind_modify, bind_gets.
  change (peekNextGeneratedName s1) with "Animation 1".
  set (a := newAnimation canvasSize p "Animation 1").
  set (s2 := set_mAnimations _ _).
  change (animationCount s2 =? 1) with true. cbv beta iota.
  destruct (Z.eq_dec 0 (mCurrentAnimationIndex s)) as [E|Hne].
  - rewrite (bind_quiet _ _ _ _ _
               (setCurrentAnimationIndex_same 0 s2 ltac:(change (0 <= 0 <= 1); lia) E)).
    rewrite bind_emit. unfold ret.
    eexists _, _. split; [apply reset_result|]. split; [reflexivity|].
    cbn. split; [reflexivity|]. split; [reflexivity|]. split; [symmetry; exact E|].
    split; [intros _; split; reflexivity | intros H; congruence].
  - rewrite (bind_Done _ _ _ _ _ _
               (setCurrentAnimationIndex_changes 0 s2 a eq_refl Hne)).
    rewrite bind_emit. unfold ret.
    eexists _, _. split; [apply reset_result|]. split; [reflexivity|].
    cbn. split; [reflexivity|]. split; [reflexivity|]. split; [reflexivity|].
    split; [intros H; congruence | intros _; split; reflexivity].
Qed.

(** ** The notifications of every operation *)

Lemma announcements_app l1 l2 :
  announcements (l1 ++ l2) = announcements l1 ++ announcements l2.
Proof. apply List.filter_app. Qed.

Lemma announces_bind {A B} Q l1 (m : M A) (k : A -> M B) :
  announces (fun l => l = l1) m ->
  (forall a, announces (fun l => Q (l1 ++ l)) (k a)) ->
  announces Q (bind m k).
Proof.
  intros Hm Hk s b s' log E. unfold bind in E.
  destruct (m s) as [a s1 la|] eqn:E1; [|discriminate].
  destruct (k a s1) as [b' s2 lb|] eqn:E2; [|discriminate].
  injection E as <- <- <-. rewrite announcements_app.
  rewrite (Hm _ _ _ _ E1). exact (Hk _ _ _ _ _ E2).
Qed.

Lemma announces_bind_silent {A B} Q (m : M A) (k : A -> M B) :
  announces (fun l => l = []) m ->
  (forall a, announces Q (k a)) ->
  announces Q (bind m k).
Proof. intros Hm Hk. apply (announces_bind Q [] m k Hm). exact Hk. Qed.

Lemma announces_emit Q e : Q (announcements [e]) -> announces Q (emit e).
Proof. intros H s a s' log E. injection E as _ _ <-. exact H. Qed.

Lemma announces_bind_emit {B} Q e (k : unit -> M B) :
  announces (fun l => Q (announcements [e] ++ l)) (k tt) ->
  announces Q (bind (emit e) k).
Proof.
  intros Hk. apply (announces_bind Q (announcements [e])).
  - apply announces_emit. reflexivity.
  - intros []. exact Hk.
Qed.

Lemma announces_ret {A} Q (a : A) : Q [] -> announces Q (ret a).
Proof. intros H s b s' log E. injection E as _ _ <-. exact H. Qed.

Lemma announces_gets {A} Q (f : AnimationSystem -> A) : Q [] -> announces Q (gets f).
Proof. intros H s b s' log E. injection E as _ _ <-. exact H. Qed.

Lemma announces_modify Q f : Q [] -> announces Q (modify f).
Proof. intros H s b s' log E. injection E as _ _ <-. exact H. Qed.

Lemma announces_fault {A} Q : announces Q (@fault A).
Proof. intros s b s' log E. discriminate E. Qed.

Lemma announces_unchecked {A} Q (o : option A) : Q [] -> announces Q (unchecked o).
Proof. intros H. destruct o; [apply announces_ret; exact H | apply announces_fault]. Qed.

Lemma announces_isValidIndexOrWarn Q index : Q [] -> announces Q (isValidIndexOrWarn index).
Proof.
  intros H s b s' log E. unfold isValidIndexOrWarn in E. rewrite bind_gets in E.
  destruct ((index <? 0) || (index >? animationCount s));
    injection E as _ _ <-; exact H.
Qed.

Lemma announces_setCurrentAnimationIndex Q index :
  Q [] -> announces Q (setCurrentAnimationIndex index).
Proof.
  intros H s [] s' log E.
  destruct (setCurrentAnimationIndex_returns index s s' log E)
    as [(_ & -> & _) | [(_ & -> & _) | (a & _ & _ & -> & _)]]; exact H.
Qed.

Ltac silent :=
  repeat
    first
      [ reflexivity
      | apply announces_setCurrentAnimationIndex
      | apply announces_isValidIndexOrWarn
      | apply announces_ret | apply announces_gets | apply announces_modify
      | apply announces_unchecked | apply announces_fault | apply announces_emit
      | apply announces_bind_emit
      | apply announces_bind_silent; [|intros ?]
      | match goal with
        | |- announces _ (match ?x with _ => _ end) => destruct x
        end ].

Ltac announce :=
  repeat
    first
      [ apply announces_setCurrentAnimationIndex
      | apply announces_isValidIndexOrWarn
      | apply announces_ret | apply announces_gets | apply announces_modify
      | apply announces_unchecked | apply announces_fault | apply announces_emit
      | apply announces_bind_emit
      | apply announces_bind_silent; [solve [silent] | intros ?]
      | match goal with
        | |- announces _ (match ?x with _ => _ end) => destruct x
        end ].

Ltac pair_found :=
  cbn;
  first
    [ left; reflexivity
    | right; left; eexists; reflexivity
    | right; right; eexists; reflexivity ].

Lemma announces_addNewAnimation canvasSize p :
  announces one_pair_at_most (addNewAnimation canvasSize p).
Proof. unfold addNewAnimation. announce; pair_found. Qed.

Lemma announces_addAnimation a index :
  announces one_pair_at_most (addAnimation a index).
Proof. unfold addAnimation. announce; pair_found. Qed.

Lemma announces_takeAnimation_QString n :
  announces one_pair_at_most (takeAnimation_QString n).
Proof. unfold takeAnimation_QString. announce; pair_found. Qed.

Lemma announces_takeAnimation_int index :
  announces one_pair_at_most (takeAnimation_int index).
Proof. unfold takeAnimation_int. announce; pair_found. Qed.

Lemma announces_read json : announces one_pair_at_most (read json).
Proof.
  destruct json; unfold read.
  - apply announces_bind_silent; [unfold takeNextGeneratedName; silent|].
    intros n.
    intros s [] s' log E.
    match type of E with
    | bind (addAnimation ?a 0) _ _ = _ =>
        destruct (addAnimation a 0 s) as [[] s1 l1|] eqn:E1;
          [rewrite (bind_Done _ _ _ _ _ _ E1) in E
          | rewrite (bind_OutOfBounds _ _ _ E1) in E; discriminate E];
          pose proof (announces_addAnimation a 0 s tt s1 l1 E1) as H1
    end.
    rewrite !bind_playback in E. cbn in E. injection E as _ <-.
    rewrite app_nil_r. exact H1.
  - intros s [] s' log E. cbn in E. injection E as _ <-. left. reflexivity.
Qed.

(** X22. Every operation that returns has emitted, among the pre- and
    post-notifications of additions and removals, either none at all or
    exactly one pre-notification followed by the post-notification of the
    same kind carrying the same index; this holds in every state and for
    every argument. *)
Theorem every_operation_announces_one_pair_at_most o s s' log :
  run o s = Done tt s' log ->
  one_pair_at_most (announcements log).
Proof.
  destruct o; cbn [run].
  - apply (announces_setCurrentAnimationIndex one_pair_at_most index). left. reflexivity.
  - intros E. unfold bind in E.
    destruct (addNewAnimation canvasSize p s) as [n s1 l1|] eqn:E1; [|discriminate E].
    cbn in E. injection E as _ <-. rewrite app_nil_r.
    exact (announces_addNewAnimation canvasSize p s n s1 l1 E1).
  - apply announces_addAnimation.
  - apply announces_takeAnimation_QString.
  - intros E. unfold bind in E.
    destruct (takeAnimation_int index s) as [r s1 l1|] eqn:E1; [|discriminate E].
    cbn in E. injection E as _ <-. rewrite app_nil_r.
    exact (announces_takeAnimation_int index s r s1 l1 E1).
  - apply announces_read.
  - intros E. rewrite reset_result in E. injection E as _ <-. left. reflexivity.
Qed.

Lemma every_operation_announces_one_pair_at_most_witness :
  one_pair_at_most
    (announcements
       [preAnimationRemoved 0; qWarning (InvalidIndex (-1)); qWarning (InvalidIndex (-1));
        postAnimationRemoved 0; animationCountChanged]).
Proof.
  apply (every_operation_announces_one_pair_at_most
           (TakeAnimation_QString "Animation 1") one_animation emptied).
  reflexivity.
Defined.

Lemma takeAnimation_QString_returns n s s' log :
  takeAnimation_QString n s = Done tt s' log ->
  (findAnimationWithName n s = None /\ s' = s /\ log = [qWarning (DoesntExist n)]) \/
  (exists r l,
     findAnimationWithName n s = Some r /\
     mAnimations s' = erase (Z.of_nat r) (mAnimations s) /\
     mAnimationsCreated s' = mAnimationsCreated s /\
     log = preAnimationRemoved (Z.of_nat r) :: l).
Proof.
  intros E. unfold takeAnimation_QString in E. rewrite bind_gets in E.
  destruct (findAnimationWithName n s) as [r|] eqn:F.
  - right. exists r. rewrite bind_emit, bind_gets in E.
    assert (Hfirst : exists w,
      (if animationCount s =? 1 then setCurrentAnimationIndex (-1) else ret tt) s
      = Done tt s w).
    { destruct (animationCount s =? 1);
        [eexists; apply minus_one_is_refused | eexists; reflexivity]. }
    destruct Hfirst as (w & Ew). rewrite (bind_Done _ _ _ _ _ _ Ew), bind_gets in E.
    match type of E with
    | context [bind ?m _ s] =>
        destruct (m s) as [[] s3 l3|] eqn:E3;
          [rewrite (bind_Done _ _ _ _ _ _ E3) in E
          | rewrite (bind_OutOfBounds _ _ _ E3) in E; discriminate E]
    end.
    assert (H3 : mAnimations s3 = mAnimations s /\
                 mAnimationsCreated s3 = mAnimationsCreated s).
    { match type of E3 with
      | ?m s = _ =>
          assert (K : keeps (fun x => mAnimations x = mAnimations s /\
                                      mAnimationsCreated x = mAnimationsCreated s) m)
            by (apply keeps_if;
                [apply setCurrentAnimationIndex_keeps_vector | apply keeps_ret]);
          exact (K s tt s3 l3 (conj eq_refl eq_refl) E3)
      end. }
    destruct H3 as [Hv Hc].
    rewrite bind_modify, bind_emit in E. cbn in E. injection E as <- <-.
    eexists. cbn. rewrite Hv, Hc. auto.
  - left. injection E as <- <-. auto.
Qed.

Lemma addAnimation_accepted_log a index s s' log :
  indexOf a (mAnimations s) = -1 ->
  0 <= index <= animationCount s ->
  addAnimation a index s = Done tt s' log ->
  exists l, log = preAnimationAdded index :: l.
Proof.
  intros Hnew Hidx E. rewrite addAnimation_accepted in E by assumption.
  rewrite bind_emit in E.
  match type of E with
  | match ?x with _ => _ end = _ => destruct x as [[] s2 l2|]; [|discriminate E]
  end.
  injection E as _ <-. eauto.
Qed.

Lemma size_changed {A} (v w : list A) : size w <> size v -> w <> v.
Proof. intros H E. apply H. rewrite E. reflexivity. Qed.

(** X23. The operations other than [read] and [reset()] announce every
    change of the vector: whenever the setter, [addNewAnimation],
    [addAnimation] or either [takeAnimation] returns, in any state, the
    vector is what it was if and only if no pre- or post-notification
    was emitted. *)
Theorem vector_changes_are_announced o s s' log :
  announced o = true ->
  run o s = Done tt s' log ->
  (mAnimations s' = mAnimations s <-> announcements log = []).
Proof.
  destruct o; cbn [run announced]; intros Ho E; try discriminate Ho.
  - destruct (setCurrentAnimationIndex_returns index s s' log E)
      as [(-> & -> & _) | [(-> & -> & _) | (a & _ & _ & -> & ->)]];
      split; reflexivity.
  - unfold bind in E.
    destruct (addNewAnimation canvasSize p s) as [n s1 l1|] eqn:E1; [|discriminate E].
    cbn in E. injection E as <- <-. rewrite app_nil_r.
    destruct (findAnimationWithName (peekNextGeneratedName s) s) as [r|] eqn:F.
    + rewrite (addNewAnimation_refused canvasSize p s r F) in E1.
      injection E1 as _ <- <-. split; reflexivity.
    + destruct (addNewAnimation_result canvasSize p s F) as (s2 & mid & E2 & _ & Hv & _).
      rewrite E2 in E1. injection E1 as _ <- <-. split.
      * intros H. exfalso. revert H. rewrite Hv. apply size_changed.
        rewrite size_app. change (size [_]) with 1. lia.
      * intros H. discriminate H.
  - destruct (addAnimation_returns a index s s' log E)
      as [(-> & Href) | (Hnew & Hidx & Hv & _)].
    + split; [intros _|reflexivity].
      destruct (Z.eq_dec (indexOf a (mAnimations s)) (-1)) as [Hnew|Hold].
      * destruct Href as [Hold | Hbad]; [contradiction|].
        rewrite (addAnimation_invalid a index s Hnew Hbad) in E.
        injection E as <-. reflexivity.
      * rewrite (addAnimation_present a index s Hold) in E.
        injection E as <-. reflexivity.
    + destruct (addAnimation_accepted_log a index s s' log Hnew Hidx E) as (l & ->).
      split.
      * intros H. exfalso. revert H. rewrite Hv. apply size_changed.
        rewrite size_insert_. lia.
      * intros H. discriminate H.
  - destruct (takeAnimation_QString_returns n s s' log E)
      as [(_ & -> & ->) | (r & l & F & Hv & _ & ->)].
    + split; reflexivity.
    + pose proof (findAnimationWithName_in_range n s r F) as Hr. split.
      * intros H. exfalso. revert H. rewrite Hv. apply size_changed.
        rewrite size_erase by exact Hr. lia.
      * intros H. discriminate H.
  - unfold bind in E.
    destruct (takeAnimation_int index s) as [r s1 l1|] eqn:E1; [|discriminate E].
    cbn in E. injection E as <- <-. rewrite app_nil_r.
    rewrite takeAnimation_int_cases in E1.
    destruct ((index <? 0) || (index >? animationCount s)).
    + injection E1 as _ <- <-. split; reflexivity.
    + destruct (at_ (mAnimations s) index) as [a|] eqn:Ha; [|discriminate E1].
      injection E1 as _ <- <-. apply at_Some in Ha as [Hi _]. split.
      * cbn. intros H. exfalso. revert H. apply size_changed.
        rewrite size_erase by exact Hi. lia.
      * intros H. discriminate H.
Qed.

Lemma vector_changes_are_announced_witness :
  mAnimations first_detached = mAnimations two_animations <->
  announcements
    [preAnimationRemoved 0; postAnimationRemoved 0; animationCountChanged] = [].
Proof.
  apply (vector_changes_are_announced (TakeAnimation_int 0) two_animations first_detached).
  - reflexivity.
  - reflexivity.
Defined.

(** ** The range of the current index, continued *)

(** X24. [currentAnimation()] stays inside the vector exactly when the
    current index is in [-1, size - 1]: in such a state it returns,
    without a warning and without changing anything, none for -1 and
    the element at the index otherwise; in every other state it reads the
    vector out of bounds. *)
Theorem currentAnimation_safe_iff_in_range s :
  (index_in_range s ->
   currentAnimation s =
     Done (at_ (mAnimations s) (mCurrentAnimationIndex s)) s [] /\
   (at_ (mAnimations s) (mCurrentAnimationIndex s) = None <->
    mCurrentAnimationIndex s = -1)) /\
  (~ index_in_range s -> currentAnimation s = OutOfBounds).
Proof.
  pose proof (size_nonneg (mAnimations s)) as Hs. fold (animationCount s) in Hs.
  unfold index_in_range. split.
  - intros [Hlo Hhi].
    destruct (Z.eq_dec (mCurrentAnimationIndex s) (-1)) as [E|Hne].
    + rewrite E. split; [apply currentAnimation_none; exact E|].
      split; [reflexivity | intros _; apply at_negative; lia].
    + destruct (at_in_range (mAnimations s) (mCurrentAnimationIndex s)) as [b Hb];
        [fold (animationCount s); lia|].
      rewrite Hb. split; [apply currentAnimation_selected; exact Hb|].
      split; [discriminate | intros H; contradiction].
  - intros Hout. unfold currentAnimation. rewrite bind_gets.
    destruct (mCurrentAnimationIndex s =? -1) eqn:E; [lia|].
    rewrite bind_gets.
    replace (at_ (mAnimations s) (mCurrentAnimationIndex s)) with (@None Animation);
      [reflexivity|].
    symmetry. apply at_None. fold (animationCount s). lia.
Qed.

(** X25. Appending, inserting and reading keep the current index in
    [-1, size - 1]; so does the setter for an index below the size, and
    the removal by name from a collection that does not hold exactly one
    animation. *)
Theorem range_keeping_operations o s s' log :
  range_keeping o s ->
  index_in_range s ->
  run o s = Done tt s' log ->
  index_in_range s'.
Proof.
  destruct o; cbn [range_keeping run]; intros Ho Hr E; try contradiction.
  - exact (setCurrentAnimationIndex_keeps_range index s s' log Ho Hr E).
  - unfold bind in E.
    destruct (addNewAnimation canvasSize p s) as [n s1 l1|] eqn:E1; [|discriminate E].
    cbn in E. injection E as <- _.
    exact (addNewAnimation_keeps_range canvasSize p s n s1 l1 Hr E1).
  - exact (addAnimation_keeps_range a index s s' log Hr E).
  - exact (takeAnimation_QString_keeps_range n s s' log Ho Hr E).
  - exact (read_keeps_range json s s' log Hr E).
Qed.

Lemma range_keeping_operations_witness : index_in_range first_detached.
Proof.
  apply (range_keeping_operations (TakeAnimation_QString "Animation 1") two_animations
           first_detached
           [preAnimationRemoved 0; qWarning (InvalidIndex (-1));
            postAnimationRemoved 0; animationCountChanged]).
  - cbn. discriminate.
  - unfold index_in_range. change (-1 <= 0 <= 2 - 1). lia.
  - reflexivity.
Defined.






(** ** Removing the current animation by name *)

(** X27. Removing the current animation by name, when it is not the
    first: in a state whose current index is in its range and at least
    1, if the name is found at the current index, the call selects the
    predecessor: the current index is decremented, the change is
    signalled once, and [currentAnimation()] and the playback both
    designate the element that preceded the removed one. *)
Theorem takeAnimation_QString_of_current_selects_predecessor n s r c :
  index_in_range s ->
  findAnimationWithName n s = Some r ->
  Z.of_nat r = mCurrentAnimationIndex s ->
  at_ (mAnimations s) (mCurrentAnimationIndex s - 1) = Some c ->
  exists s',
    takeAnimation_QString n s =
      Done tt s'
        [preAnimationRemoved (Z.of_nat r); currentAnimationIndexChanged;
         postAnimationRemoved (Z.of_nat r); animationCountChanged] /\
    mCurrentAnimationIndex s' = mCurrentAnimationIndex s - 1 /\
    currentAnimation s' = Done (Some c) s' [] /\
    animation (mCurrentAnimationPlayback s') = Some c.
Proof.
  intros Hr F Heq Hc. pose proof (proj1 (at_Some _ _ _) Hc) as [Hpos _].
  eexists. split; [apply (takeAnimation_QString_moves n s r c); auto; lia|].
  split; [reflexivity|]. split; [|reflexivity].
  apply currentAnimation_selected. cbn. rewrite at_erase_before by lia. exact Hc.
Qed.

Lemma takeAnimation_QString_of_current_selects_predecessor_witness :
  exists s',
    takeAnimation_QString "Animation 2"
      (set_mCurrentAnimationPlayback (bound_to (Some (generated 2 2)))
         (set_mCurrentAnimationIndex 1 two_animations)) =
      Done tt s'
        [preAnimationRemoved (Z.of_nat 1); currentAnimationIndexChanged;
         postAnimationRemoved (Z.of_nat 1); animationCountChanged] /\
    mCurrentAnimationIndex s' = 1 - 1 /\
    currentAnimation s' = Done (Some (generated 1 1)) s' [] /\
    animation (mCurrentAnimationPlayback s') = Some (generated 1 1).
Proof.
  apply (takeAnimation_QString_of_current_selects_predecessor "Animation 2"
           (set_mCurrentAnimationPlayback (bound_to (Some (generated 2 2)))
              (set_mCurrentAnimationIndex 1 two_animations))
           1 (generated 1 1)).
  - unfold index_in_range. change (-1 <= 1 <= 2 - 1). lia.
  - reflexivity.
  - reflexivity.
  - reflexivity.
Defined.

(** X28. Removing the current animation by name, when it is the first of
    several: the decrement to -1 is refused, so the current index stays 0
    and no [currentAnimationIndexChanged] is emitted, although
    [currentAnimation()] is now the element that followed the removed
    one; the playback is not rebound. *)
Theorem takeAnimation_QString_of_first_current_is_silent n s b :
  findAnimationWithName n s = Some 0%nat ->
  mCurrentAnimationIndex s = 0 ->
  at_ (mAnimations s) 1 = Some b ->
  exists s',
    takeAnimation_QString n s =
      Done tt s'
        [preAnimationRemoved 0; qWarning (InvalidIndex (-1));
         postAnimationRemoved 0; animationCountChanged] /\
    mCurrentAnimationIndex s' = 0 /\
    currentAnimation s' = Done (Some b) s' [] /\
    mCurrentAnimationPlayback s' = mCurrentAnimationPlayback s.
Proof.
  intros F Hcur Hb. pose proof (proj1 (at_Some _ _ _) Hb) as [Hsize _].
  fold (animationCount s) in Hsize.
  exists (set_mAnimations (erase 0 (mAnimations s)) s). split.
  - unfold takeAnimation_QString. rewrite bind_gets, F. cbv beta iota.
    rewrite bind_emit, bind_gets.
    destruct (animationCount s =? 1) eqn:E1; [lia|].
    rewrite bind_ret, bind_gets, Hcur. change (Z.of_nat 0 <=? 0) with true.
    cbv beta iota. change (0 - 1) with (-1).
    rewrite (bind_Done _ _ _ _ _ _ (minus_one_is_refused s)).
    rewrite bind_modify, bind_emit. reflexivity.
  - split; [exact Hcur|]. split; [|reflexivity].
    apply currentAnimation_selected. cbn. rewrite Hcur.
    rewrite (at_erase_after 0 (mAnimations s) 0) by lia. exact Hb.
Qed.

Lemma takeAnimation_QString_of_first_current_is_silent_witness :
  exists s',
    takeAnimation_QString "Animation 1" two_animations =
      Done tt s'
        [preAnimationRemoved 0; qWarning (InvalidIndex (-1));
         postAnimationRemoved 0; animationCountChanged] /\
    mCurrentAnimationIndex s' = 0 /\
    currentAnimation s' = Done (Some (generated 2 2)) s' [] /\
    mCurrentAnimationPlayback s' = mCurrentAnimationPlayback two_animations.
Proof.
  apply (takeAnimation_QString_of_first_current_is_silent "Animation 1" two_animations
           (generated 2 2)); reflexivity.
Defined.

(** ** The counter of generated names *)

Lemma wrap_int_add_l a b : wrap_int (wrap_int a + b) = wrap_int (a + b).
Proof.
  unfold wrap_int.
  replace ((a + 2147483648) mod 4294967296 - 2147483648 + b + 2147483648)
    with ((a + 2147483648) mod 4294967296 + b) by lia.
  rewrite Zplus_mod_idemp_l. f_equal. f_equal. lia.
Qed.

Lemma wrap_int_eq a b :
  wrap_int a = wrap_int b -> exists q, a - b = q * 4294967296.
Proof.
  unfold wrap_int. intros H.
  exists ((a + 2147483648) / 4294967296 - (b + 2147483648) / 4294967296).
  pose proof (Z.div_mod (a + 2147483648) 4294967296 ltac:(lia)) as Ha.
  pose proof (Z.div_mod (b + 2147483648) 4294967296 ltac:(lia)) as Hb.
  lia.
Qed.

Lemma wrap_int_small z : -2147483648 <= z <= 2147483647 -> wrap_int z = z.
Proof. intros H. unfold wrap_int. rewrite Z.mod_small by lia. lia. Qed.

Lemma wrap_int_period z : wrap_int (z + 4294967296) = wrap_int z.
Proof.
  unfold wrap_int. f_equal.
  replace (z + 4294967296 + 2147483648) with (z + 2147483648 + 1 * 4294967296) by lia.
  apply Z.mod_add. lia.
Qed.

(** At [INT_MAX] the increment wraps: the next name carries the most
    negative [int], and so does the counter after [addNewAnimation]. *)
Lemma peekNextGeneratedName_at_INT_MAX :
  peekNextGeneratedName (set_mAnimationsCreated 2147483647 initial) =
    "Animation -2147483648" /\
  exists s' log,
    addNewAnimation canvas 1 (set_mAnimationsCreated 2147483647 initial) =
      Done "Animation -2147483648" s' log /\
    mAnimationsCreated s' = -2147483648.
Proof.
  split; [vm_compute; reflexivity|].
  eexists _, _. split; vm_compute; reflexivity.
Qed.

Lemma peekNextGeneratedName_inj s s' :
  peekNextGeneratedName s = peekNextGeneratedName s' ->
  wrap_int (mAnimationsCreated s + 1) = wrap_int (mAnimationsCreated s' + 1).
Proof.
  unfold peekNextGeneratedName. intros H.
  apply String.app_inj in H. apply pretty_Z_inj in H. exact H.
Qed.

(** An operation other than [reset()] leaves the counter as it was or
    increments it once. *)
Lemma counter_step o s s' log :
  resets o = false ->
  run o s = Done tt s' log ->
  mAnimationsCreated s' = mAnimationsCreated s \/
  mAnimationsCreated s' = wrap_int (mAnimationsCreated s + 1).
Proof.
  destruct o; cbn [run resets]; intros Ho E; try discriminate Ho.
  - destruct (setCurrentAnimationIndex_returns index s s' log E)
      as [(-> & _) | [(-> & _) | (a & _ & _ & _ & ->)]]; left; reflexivity.
  - unfold bind in E.
    destruct (addNewAnimation canvasSize p s) as [n s1 l1|] eqn:E1; [|discriminate E].
    cbn in E. injection E as <- _.
    destruct (addNewAnimation_returns _ _ _ _ _ _ E1) as [(_ & -> & _) | (_ & Hc & _)];
      auto.
  - destruct (addAnimation_returns a index s s' log E)
      as [(-> & _) | (_ & _ & _ & Hc)]; auto.
  - destruct (takeAnimation_QString_returns n s s' log E)
      as [(_ & -> & _) | (r & l & _ & _ & Hc & _)]; auto.
  - unfold bind in E.
    destruct (takeAnimation_int index s) as [r s1 l1|] eqn:E1; [|discriminate E].
    cbn in E. injection E as <- _.
    rewrite takeAnimation_int_cases in E1.
    destruct ((index <? 0) || (index >? animationCount s)).
    + injection E1 as _ <- _. left. reflexivity.
    + destruct (at_ (mAnimations s) index) as [a|]; [|discriminate E1].
      injection E1 as _ <- _. left. reflexivity.
  - destruct json as [p f fc fx fy fw fh sc lp | animations sc lp pl].
    + unfold read in E.
      rewrite (bind_quiet takeNextGeneratedName _ s (peekNextGeneratedName s)
                 (set_mAnimationsCreated (wrap_int (mAnimationsCreated s + 1)) s) eq_refl)
        in E.
      cbv beta zeta in E.
      match type of E with
      | bind (addAnimation ?a 0) _ ?s0 = _ =>
          destruct (addAnimation a 0 s0) as [[] s1 l1|] eqn:E1;
            [rewrite (bind_Done _ _ _ _ _ _ E1) in E
            | rewrite (bind_OutOfBounds _ _ _ E1) in E; discriminate E];
          destruct (addAnimation_returns a 0 s0 s1 l1 E1)
            as [(-> & _) | (_ & _ & _ & Hc)]
      end;
        rewrite !bind_playback in E; cbn in E; injection E as <- _; cbn; auto.
    + cbn in E. injection E as <- _. left. reflexivity.
Qed.

Lemma counter_after os : forall s s',
  forallb (fun o => negb (resets o)) os = true ->
  run_all os s = Some s' ->
  exists k,
    0 <= k <= Z.of_nat (length os) /\
    wrap_int (mAnimationsCreated s') = wrap_int (mAnimationsCreated s + k).
Proof.
  induction os as [|o os IH]; intros s s' Hos E; cbn in E.
  - injection E as <-. exists 0. split; [cbn; lia|]. f_equal. lia.
  - cbn in Hos. apply andb_true_iff in Hos as [Ho Hos].
    apply negb_true_iff in Ho.
    destruct (run o s) as [[] s1 l1|] eqn:E1; [|discriminate].
    destruct (IH s1 s' Hos E) as (k & Hk & Hw).
    destruct (counter_step o s s1 l1 Ho E1) as [Hc | Hc].
    + exists k. split; [cbn [length]; lia|]. rewrite Hw, Hc. reflexivity.
    + exists (k + 1). split; [cbn [length]; lia|].
      rewrite Hw, Hc, wrap_int_add_l. f_equal. lia.
Qed.

(** X3. Generated names are not reused while the 32-bit counter has not
    come round: the name a successful [addNewAnimation] returns is not
    returned by a later [addNewAnimation] when fewer than 4294967295
    operations, none of them [reset()], come in between (removing the
    animation included).  The counter is an [int] that wraps, so after
    4294967295 further increments the same name is generated again. *)
Theorem generated_names_not_reused canvasSize p s0 n s1 log1 os s2 canvasSize' p' n' s3 log2 :
  addNewAnimation canvasSize p s0 = Done n s1 log1 ->
  n <> EmptyString ->
  forallb (fun o => negb (resets o)) os = true ->
  Z.of_nat (length os) < 4294967295 ->
  run_all os s1 = Some s2 ->
  addNewAnimation canvasSize' p' s2 = Done n' s3 log2 ->
  n' <> n.
Proof.
  intros E1 Hn Hos Hlen Hrun E2.
  destruct (addNewAnimation_returns _ _ _ _ _ _ E1) as [(-> & _) | (-> & Hc1 & _)];
    [contradiction|].
  destruct (counter_after os s1 s2 Hos Hrun) as (k & Hk & Hw).
  destruct (addNewAnimation_returns _ _ _ _ _ _ E2) as [(-> & _) | (-> & _ & _)].
  - intros H. apply Hn. symmetry. exact H.
  - intros H. apply peekNextGeneratedName_inj in H.
    rewrite <- (wrap_int_add_l (mAnimationsCreated s2) 1) in H.
    rewrite Hw, wrap_int_add_l, Hc1 in H.
    replace (wrap_int (mAnimationsCreated s0 + 1) + k + 1)
      with (wrap_int (mAnimationsCreated s0 + 1) + (k + 1)) in H by lia.
    rewrite wrap_int_add_l in H.
    apply wrap_int_eq in H as (q & Hq).
    assert (Hq' : k + 1 = q * 4294967296) by lia.
    destruct (Z_lt_le_dec q 1) as [Hq1 | Hq1]; [|nia].
    assert (q <= 0) by lia. nia.
Qed.

Lemma generated_names_not_reused_witness :
  "Animation 2" <> "Animation 1".
Proof.
  apply (generated_names_not_reused canvas 1 initial "Animation 1" one_animation
           [preAnimationAdded (-1); currentAnimationIndexChanged; postAnimationAdded (-1)]
           [TakeAnimation_QString "Animation 1"] emptied
           canvas 2 "Animation 2"
           {| mAnimations := [generated 2 2];
              mCurrentAnimationIndex := 0;
              mCurrentAnimationPlayback := bound_to (Some (generated 1 1));
              mAnimationsCreated := 2 |}
           [preAnimationAdded (-1); postAnimationAdded (-1)]).
  - reflexivity.
  - discriminate.
  - reflexivity.
  - cbn. lia.
  - reflexivity.
  - reflexivity.
Defined.
